(** * TabEx: the popup's tab aggregation, sorting, filtering and scheduling

    A shallow embedding of [popup.js] (the version with window sorting and
    collapsible windows) and proofs about it.

    Conventions.
    - JavaScript numbers that the program computes with are array lengths,
      tab/window identifiers and [Date.now()] readings: integers, modelled
      as [Z].  The two places where the program can leave the integers
      ([Math.max()] of no arguments is [-Infinity], and the difference of two
      infinities is [NaN]) are modelled by [JS.num].
    - Strings are [string]; [String.prototype.toLowerCase],
      [String.prototype.localeCompare] and the [URL] parser belong to the
      host and are parameters of the development.
    - [Map] and plain objects used as dictionaries are [gmap]s. *)

From Stdlib Require Import ZArith Ascii String Sorted DecimalString OrderedTypeEx.
From stdpp Require Import gmap strings list.

Local Open Scope string_scope.
Local Open Scope Z_scope.

(** ** JavaScript primitives used by the popup *)

Module JS.

(** Numbers: an integer, an infinity or NaN. *)
Inductive num : Type :=
| Fin (z : Z)
| PosInf
| NegInf
| NaN.

(** [a - b]. *)
Definition sub (a b : num) : num :=
  match a, b with
  | NaN, _ | _, NaN => NaN
  | Fin x, Fin y => Fin (x - y)
  | Fin _, PosInf => NegInf
  | Fin _, NegInf => PosInf
  | PosInf, PosInf => NaN
  | PosInf, _ => PosInf
  | NegInf, NegInf => NaN
  | NegInf, _ => NegInf
  end.

(** Unary minus. *)
Definition neg (a : num) : num :=
  match a with
  | Fin x => Fin (- x)
  | PosInf => NegInf
  | NegInf => PosInf
  | NaN => NaN
  end.

(** [v < 0]. *)
Definition is_negative (v : num) : bool :=
  match v with
  | Fin x => x <? 0
  | NegInf => true
  | PosInf | NaN => false
  end.

(** [Math.max(...xs)] on integers: [-Infinity] when there are none. *)
Definition Math_max (xs : list Z) : num :=
  match xs with
  | [] => NegInf
  | x :: xs' => Fin (foldl Z.max x xs')
  end.

(** The order of the extended integers; NaN is not comparable. *)
Definition le (a b : num) : Prop :=
  match a, b with
  | NaN, _ | _, NaN => False
  | NegInf, _ => True
  | _, PosInf => True
  | Fin x, Fin y => x <= y
  | _, _ => False
  end.

(** [SortCompare] of ECMAScript: the comparator's result, with NaN
    read as [+0]. *)
Definition SortCompare {A} (comparefn : A -> A -> num) (x y : A) : num :=
  match comparefn x y with
  | NaN => Fin 0
  | v => v
  end.

(** [Array.prototype.sort(comparefn)], as a stable insertion sort: the
    elements are taken from left to right and each one is put in front
    of the first element of the sorted prefix that it is strictly
    smaller than.  For a consistent comparator this is the order
    ECMAScript prescribes (sorted, equal elements in input order). *)
Fixpoint insert {A} (comparefn : A -> A -> num) (x : A) (l : list A) : list A :=
  match l with
  | [] => [x]
  | y :: l' =>
      if is_negative (SortCompare comparefn x y)
      then x :: y :: l'
      else y :: insert comparefn x l'
  end.

Definition sort {A} (comparefn : A -> A -> num) (l : list A) : list A :=
  foldl (fun acc x => insert comparefn x acc) [] l.

(** Strings. *)

Fixpoint lastIndexOf_from (c : ascii) (s : string) (i found : Z) : Z :=
  match s with
  | EmptyString => found
  | String a s' =>
      lastIndexOf_from c s' (i + 1) (if Ascii.eqb a c then i else found)
  end.

(** [s.lastIndexOf(c)] for a one-character pattern: [-1] when absent. *)
Definition lastIndexOf (s : string) (c : ascii) : Z :=
  lastIndexOf_from c s 0 (-1).

Fixpoint take (n : nat) (s : string) : string :=
  match n, s with
  | S n', String a s' => String a (take n' s')
  | _, _ => EmptyString
  end.

Fixpoint drop (n : nat) (s : string) : string :=
  match n, s with
  | S n', String _ s' => drop n' s'
  | _, _ => s
  end.

Definition strlen (s : string) : Z := Z.of_nat (String.length s).

(** [s.substring(a, b)]: both indices are clamped to [0 .. length] and
    swapped when out of order. *)
Definition substring (s : string) (a b : Z) : string :=
  let a' := Z.max 0 (Z.min a (strlen s)) in
  let b' := Z.max 0 (Z.min b (strlen s)) in
  let lo := Z.min a' b' in
  let hi := Z.max a' b' in
  take (Z.to_nat (hi - lo)) (drop (Z.to_nat lo) s).

(** [s.substring(a)]. *)
Definition substring_from (s : string) (a : Z) : string :=
  substring s a (strlen s).

(** [s.includes(q)]. *)
Fixpoint includes (s q : string) : bool :=
  String.prefix q s ||
  match s with
  | EmptyString => false
  | String _ s' => includes s' q
  end.

(** Truthiness of a string: the empty string is the only falsy one. *)
Definition truthy (s : string) : bool :=
  match s with
  | EmptyString => false
  | _ => true
  end.

(** [s || d]. *)
Definition or_else (s d : string) : string :=
  if truthy s then s else d.

End JS.

(** ** Data model *)

(** The [group] field of an enriched tab. *)
Record Group := {
  group_title : string;
  group_color : string
}.

(** A tab as [getAllTabs] returns it. *)
Record Tab := {
  id : Z;
  title : string;
  url : string;
  favIconUrl : string;
  active : bool;
  pinned : bool;
  groupId : Z;
  group : option Group;
  lastAccessed : option Z;   (* [null] is [None] *)
  tab_windowId : Z
}.

(** A window as [getAllTabs] returns it. *)
Record Window := {
  windowId : Z;
  focused : bool;
  tabs : list Tab
}.

(** What the browser hands out: [chrome.windows.getAll({populate: true})]
    and [chrome.tabGroups.query({})]. *)
Record ChromeTab := {
  ct_id : Z;
  ct_title : string;             (* [undefined] and [""] are both falsy *)
  ct_url : string;
  ct_favIconUrl : string;
  ct_active : bool;
  ct_pinned : bool;
  ct_groupId : Z
}.

Record ChromeWindow := {
  cw_id : Z;
  cw_focused : bool;
  cw_tabs : list ChromeTab
}.

Record ChromeGroup := {
  cg_id : Z;
  cg_title : string;
  cg_color : string
}.

(** A rendered window group of [renderTabs]: the window it was built
    from, the tabs drawn under it and whether it carries the [collapsed]
    class. *)
Record WindowGroup := {
  wg_window : Window;
  wg_tabs : list Tab;
  wg_collapsed : bool
}.

(** A child of the popup's [tabs-container]: the [no-results] message
    or a window group. *)
Inductive Child : Type :=
| MessageDiv (text : string)
| WindowGroupDiv (group : WindowGroup).

(** The parts of the page [renderTabs] writes: the children of the
    container and the
    numbers shown in [window-count] and [tab-count]. *)
Record View := {
  container : list Child;
  window_count : Z;
  tab_count_shown : Z
}.

(** The outcome of an awaited browser call: a value, or a rejection. *)
Inductive outcome (A : Type) : Type :=
| Resolved (a : A)
| Rejected (error : string).
Arguments Resolved {A} a.
Arguments Rejected {A} error.

Definition TAB_GROUP_ID_NONE : Z := -1.

Definition DEFAULT_FAVICON : string := "data:image/svg+xml,<svg/>".
Definition DEFAULT_SORT : string := "tab-count-asc".

(** [DEFAULT_FAVICON] stands for the inline SVG placeholder of the
    source; its markup plays no role here. *)

(** ** The popup, over the host's string functions *)

Section Popup.

(** [String.prototype.toLowerCase]. *)
Variable toLowerCase : string -> string.
(** [String.prototype.localeCompare]: negative, zero or positive. *)
Variable localeCompare : string -> string -> Z.
(** [new URL(u).hostname]; [None] when the constructor throws. *)
Variable hostname : string -> option string.

(** *** getFaviconUrl *)

Definition getFaviconUrl (tab : ChromeTab) : string :=
  if JS.truthy (ct_favIconUrl tab) && String.prefix "http" (ct_favIconUrl tab)
  then ct_favIconUrl tab
  else
    match hostname (ct_url tab) with
    | Some h => "https://www.google.com/s2/favicons?domain=" +:+ h +:+ "&sz=16"
    | None => DEFAULT_FAVICON
    end.

(** *** getAllTabs *)

(** [groupMap]: later groups overwrite earlier ones with the same id. *)
Definition groupMap (tabGroups : list ChromeGroup) : gmap Z ChromeGroup :=
  foldl (fun m g => <[cg_id g := g]> m) ∅ tabGroups.

(** [tabAccessTimes.get(tab.id) || (tab.active ? Date.now() : null)];
    a recorded [0] is falsy and falls through like a missing entry. *)
Definition resolveLastAccessed
    (tabAccessTimes : gmap Z Z) (now : Z) (tab : ChromeTab) : option Z :=
  let fallback := if ct_active tab then Some now else None in
  match tabAccessTimes !! ct_id tab with
  | Some t => if t =? 0 then fallback else Some t
  | None => fallback
  end.

Definition enrichTab
    (groups : gmap Z ChromeGroup) (tabAccessTimes : gmap Z Z) (now : Z)
    (window : ChromeWindow) (tab : ChromeTab) : Tab :=
  let group :=
    if negb (ct_groupId tab =? TAB_GROUP_ID_NONE)
    then groups !! ct_groupId tab
    else None in
  {| id := ct_id tab;
     title := JS.or_else (ct_title tab) "Untitled";
     url := JS.or_else (ct_url tab) "";
     favIconUrl := getFaviconUrl tab;
     active := ct_active tab;
     pinned := ct_pinned tab;
     groupId := ct_groupId tab;
     group :=
       match group with
       | Some g => Some {| group_title := JS.or_else (cg_title g) "Unnamed Group";
                           group_color := cg_color g |}
       | None => None
       end;
     lastAccessed := resolveLastAccessed tabAccessTimes now tab;
     tab_windowId := cw_id window |}.

(** [getAllTabs]: the two awaited calls are its inputs; [now] is the
    reading of [Date.now()] during the pass.  A rejection of either
    call lands in the [catch] and yields the empty array. *)
Definition getAllTabs
    (windows_getAll : outcome (list ChromeWindow))
    (tabGroups_query : outcome (list ChromeGroup))
    (tabAccessTimes : gmap Z Z) (now : Z) : list Window :=
  match windows_getAll with
  | Rejected _ => []
  | Resolved windows =>
      match tabGroups_query with
      | Rejected _ => []
      | Resolved tabGroups =>
          let groups := groupMap tabGroups in
          map (fun window =>
                 {| windowId := cw_id window;
                    focused := cw_focused window;
                    tabs := map (enrichTab groups tabAccessTimes now window)
                                (cw_tabs window) |})
              windows
      end
  end.

(** *** sortWindows *)

Definition tab_count (w : Window) : Z := Z.of_nat (length (tabs w)).

(** [case 'tab-count'] *)
Definition compare_tab_count (direction : string) (a b : Window) : JS.num :=
  let countDiff := tab_count a - tab_count b in
  if negb (countDiff =? 0)
  then (if String.eqb direction "asc" then JS.Fin countDiff else JS.Fin (- countDiff))
  else if focused a then JS.Fin (-1)
  else if focused b then JS.Fin 1
  else JS.Fin 0.

(** [case 'focused'] *)
Definition compare_focused (direction : string) (a b : Window) : JS.num :=
  let by_count := JS.Fin (tab_count a - tab_count b) in
  if String.eqb direction "asc"
  then
    if focused a && negb (focused b) then JS.Fin (-1)
    else if negb (focused a) && focused b then JS.Fin 1
    else by_count
  else
    if focused a && negb (focused b) then JS.Fin 1
    else if negb (focused a) && focused b then JS.Fin (-1)
    else by_count.

(** [(w.tabs[0]?.title || 'Untitled').toLowerCase()] *)
Definition first_title (w : Window) : string :=
  toLowerCase
    (JS.or_else (match tabs w with t :: _ => title t | [] => "" end) "Untitled").

(** [case 'alphabetical'] *)
Definition compare_alphabetical (direction : string) (a b : Window) : JS.num :=
  let titleA := first_title a in
  let titleB := first_title b in
  let comparison := localeCompare titleA titleB in
  if String.eqb direction "asc" then JS.Fin comparison else JS.Fin (- comparison).

(** [Math.max(...w.tabs.map(t => t.lastAccessed || 0))] *)
Definition maxAccess (w : Window) : JS.num :=
  JS.Math_max (map (fun t => default 0 (lastAccessed t)) (tabs w)).

(** [case 'last-accessed'] *)
Definition compare_last_accessed (direction : string) (a b : Window) : JS.num :=
  let maxAccessA := maxAccess a in
  let maxAccessB := maxAccess b in
  let comparison := JS.sub maxAccessB maxAccessA in
  if String.eqb direction "asc" then JS.neg comparison else comparison.

(** The [switch (sortType)]: the comparator of a known type, [None]
    for the [default] branch. *)
Definition comparator (sortType direction : string)
  : option (Window -> Window -> JS.num) :=
  if String.eqb sortType "tab-count" then Some (compare_tab_count direction)
  else if String.eqb sortType "focused" then Some (compare_focused direction)
  else if String.eqb sortType "alphabetical" then Some (compare_alphabetical direction)
  else if String.eqb sortType "last-accessed" then Some (compare_last_accessed direction)
  else None.

Definition sortType_of (sortBy : string) : string :=
  JS.substring sortBy 0 (JS.lastIndexOf sortBy "-").

Definition direction_of (sortBy : string) : string :=
  JS.substring_from sortBy (JS.lastIndexOf sortBy "-" + 1).

(** [sortWindows], on array values. *)
Definition sortWindows (windows : list Window) (sortBy : string) : list Window :=
  let sorted := windows in
  let sortType := sortType_of sortBy in
  let direction := direction_of sortBy in
  match comparator sortType direction with
  | Some comparefn => JS.sort comparefn sorted
  | None => sorted
  end.

(** [sortWindows], on a store of arrays: [windows] is a reference, the
    spread allocates a fresh array [sorted], and [sort] overwrites
    [sorted] in place.  Returns the new store and the reference
    returned by the function. *)
Definition sortWindows_store
    (h : gmap positive (list Window)) (windows : positive) (sortBy : string)
  : gmap positive (list Window) * positive :=
  let sorted := fresh (dom h) in
  let h1 := <[sorted := default [] (h !! windows)]> h in
  let sortType := sortType_of sortBy in
  let direction := direction_of sortBy in
  match comparator sortType direction with
  | Some comparefn =>
      (<[sorted := JS.sort comparefn (default [] (h1 !! sorted))]> h1, sorted)
  | None => (h1, sorted)
  end.

(** *** renderTabs *)

(** [collapsedWindows[windowId]] read as a condition: a missing entry
    is [undefined], hence falsy. *)
Definition isCollapsed (collapsedWindows : gmap Z bool) (windowId : Z) : bool :=
  default false (collapsedWindows !! windowId).

(** The predicate of both [filter] calls. *)
Definition matches (query : string) (tab : Tab) : bool :=
  if negb (JS.truthy query) then true
  else JS.includes (toLowerCase (title tab)) query
       || JS.includes (toLowerCase (url tab)) query.

Definition filteredTabs (query : string) (window : Window) : list Tab :=
  List.filter (matches query) (tabs window).

(** One turn of [sortedWindows.forEach]: the accumulator is
    [totalTabs] and the children appended to the container so far. *)
Definition render_window
    (query : string) (collapsedWindows : gmap Z bool)
    (acc : Z * list WindowGroup) (window : Window) : Z * list WindowGroup :=
  let filtered := filteredTabs query window in
  if Z.of_nat (length filtered) =? 0 then acc
  else (acc.1 + Z.of_nat (length filtered),
        (acc.2 ++ [ {| wg_window := window;
                       wg_tabs := filtered;
                       wg_collapsed :=
                         isCollapsed collapsedWindows (windowId window) |} ])%list).

(** The search filter inside [renderTabs]: the groups drawn,
    [totalTabs] and [windowCount]. *)
Definition filterWindows
    (sortedWindows : list Window) (searchQuery : string)
    (collapsedWindows : gmap Z bool) : list WindowGroup * Z * Z :=
  let query := toLowerCase searchQuery in
  let '(totalTabs, groups) :=
    foldl (render_window query collapsedWindows) (0, []) sortedWindows in
  let windowCount :=
    Z.of_nat (length (List.filter
                        (fun w => 0 <? Z.of_nat (length (filteredTabs query w)))
                        sortedWindows)) in
  (groups, totalTabs, windowCount).

(** [renderTabs] up to its [await]: [container.innerHTML = ''] empties
    the container. *)
Definition renderTabs_start (view : View) : View :=
  {| container := [];
     window_count := window_count view;
     tab_count_shown := tab_count_shown view |}.

(** [renderTabs] from the return of [await getAllTabs()] on, which runs
    without further suspension: [windows] is what the aggregator
    returned and [view] is the page as it is at that moment (other calls
    of [renderTabs] may have run in between).  With no windows it
    returns before the counts are written.  Assigning [innerHTML]
    replaces the children; [appendChild] adds the groups after the
    children that are there. *)
Definition renderTabs
    (view : View) (windows : list Window) (currentSortPreference : string)
    (searchQuery : string) (collapsedWindows : gmap Z bool) : View :=
  if Z.of_nat (length windows) =? 0
  then {| container := [MessageDiv "No tabs found"];
          window_count := window_count view;
          tab_count_shown := tab_count_shown view |}
  else
    let sortedWindows := sortWindows windows currentSortPreference in
    let '(groups, totalTabs, windowCount) :=
      filterWindows sortedWindows searchQuery collapsedWindows in
    {| container := if totalTabs =? 0
                    then [MessageDiv "No tabs match your search"]
                    else (container view ++ map WindowGroupDiv groups)%list;
       window_count := windowCount;
       tab_count_shown := totalTabs |}.

End Popup.

(** ** Access times *)

(** [tabAccessTimes.set(tabId, Date.now())], the statement shared by
    [switchToTab] and [onActivatedListener]; [timestamp] is the clock
    reading. *)
Definition recordAccess (tabId timestamp : Z) (tabAccessTimes : gmap Z Z) : gmap Z Z :=
  <[tabId := timestamp]> tabAccessTimes.

(** [tabAccessTimes.get(tabId)]; [None] is [undefined]. *)
Definition getAccess (tabId : Z) (tabAccessTimes : gmap Z Z) : option Z :=
  tabAccessTimes !! tabId.

(** [switchToTab]: the two awaited commands are its inputs; when either
    rejects, control goes to the [catch] and nothing is recorded. *)
Definition switchToTab
    (windows_update tabs_update : outcome unit) (tabId now : Z)
    (tabAccessTimes : gmap Z Z) : gmap Z Z :=
  match windows_update, tabs_update with
  | Resolved _, Resolved _ => recordAccess tabId now tabAccessTimes
  | _, _ => tabAccessTimes
  end.

(** ** Collapsed windows *)

(** The in-memory object [collapsedWindows], the [collapsedWindows] slot
    of [chrome.storage.local] ([None] while nothing was ever stored) and
    the [set] requests issued but not yet carried out, oldest first:
    [saveCollapsedState] is called without [await]. *)
Record CollapseStore := {
  collapsedWindows : gmap Z bool;
  stored : option (gmap Z bool);
  writes : list (gmap Z bool)
}.

Definition initialCollapseStore : CollapseStore :=
  {| collapsedWindows := ∅; stored := None; writes := [] |}.

(** [collapsedWindows = result.collapsedWindows || {}] *)
Definition loadCollapsedState (s : CollapseStore) : CollapseStore :=
  {| collapsedWindows := default ∅ (stored s);
     stored := stored s;
     writes := writes s |}.

(** [chrome.storage.local.set({ collapsedWindows })]: the request carries
    the object as it is at the call. *)
Definition saveCollapsedState (s : CollapseStore) : CollapseStore :=
  {| collapsedWindows := collapsedWindows s;
     stored := stored s;
     writes := (writes s ++ [collapsedWindows s])%list |}.

(** [toggleWindowCollapse]; the flag returned is the [isCollapsed] that
    sets the [collapsed] class and the chevron. *)
Definition toggleWindowCollapse (windowId : Z) (s : CollapseStore)
  : CollapseStore * bool :=
  let flipped := negb (isCollapsed (collapsedWindows s) windowId) in
  let s' := saveCollapsedState
              {| collapsedWindows := <[windowId := flipped]> (collapsedWindows s);
                 stored := stored s;
                 writes := writes s |} in
  (s', isCollapsed (collapsedWindows s') windowId).

(** The storage carries out its oldest outstanding request. *)
Definition completeWrite (s : CollapseStore) : CollapseStore :=
  match writes s with
  | [] => s
  | m :: rest => {| collapsedWindows := collapsedWindows s;
                    stored := Some m;
                    writes := rest |}
  end.

(** All outstanding requests are carried out, in order. *)
Definition completeWrites (s : CollapseStore) : CollapseStore :=
  foldl (fun st _ => completeWrite st) s (writes s).

(** What can happen to the store. *)
Inductive CollapseOp : Type :=
| Toggle (windowId : Z)
| Load
| WriteDone.

Definition collapse_step (s : CollapseStore) (op : CollapseOp) : CollapseStore :=
  match op with
  | Toggle w => (toggleWindowCollapse w s).1
  | Load => loadCollapsedState s
  | WriteDone => completeWrite s
  end.

(** ** Live updates *)

Module Scheduler.

(** The two arrow functions handed to [setTimeout]. *)
Inductive Callback : Type :=
| RenderSearchInput               (* [() => renderTabs(searchInput.value)] *)
| RenderDetail (detail : string). (* [() => renderTabs(e.detail)] *)

Record Timer := {
  timer_id : Z;
  deadline : Z;
  callback : Callback
}.

(** The closure state of the [DOMContentLoaded] handler together with
    the host's timer table.  [renders] logs the calls of [renderTabs]
    made by timers: the time of the call and its argument. *)
Record State := {
  tabAccessTimes : gmap Z Z;
  searchInput_value : string;
  debounceTimeout : option Z;   (* [undefined] until the first arming *)
  timers : list Timer;          (* pending, in creation order *)
  next_timer_id : Z;
  renders : list (Z * string)
}.

(** [clearTimeout(handle)]: no effect for [undefined] or for a timer
    that is no longer pending. *)
Definition clearTimeout (handle : option Z) (ts : list Timer) : list Timer :=
  match handle with
  | Some i => List.filter (fun t => negb (timer_id t =? i)) ts
  | None => ts
  end.

(** [clearTimeout(debounceTimeout);
     debounceTimeout = setTimeout(cb, 300)] at time [now]. *)
Definition arm (cb : Callback) (now : Z) (s : State) : State :=
  let pending := clearTimeout (debounceTimeout s) (timers s) in
  {| tabAccessTimes := tabAccessTimes s;
     searchInput_value := searchInput_value s;
     debounceTimeout := Some (next_timer_id s);
     timers := (pending ++ [ {| timer_id := next_timer_id s;
                                deadline := now + 300;
                                callback := cb |} ])%list;
     next_timer_id := next_timer_id s + 1;
     renders := renders s |}.

Definition debouncedRender (now : Z) (s : State) : State :=
  arm RenderSearchInput now s.

(** The [tabsearch] listener. *)
Definition onTabSearch (detail : string) (now : Z) (s : State) : State :=
  arm (RenderDetail detail) now s.

Definition onUpdatedListener := debouncedRender.
Definition onCreatedListener := debouncedRender.
Definition onRemovedListener := debouncedRender.

Definition onActivatedListener (tabId : Z) (now : Z) (s : State) : State :=
  debouncedRender now
    {| tabAccessTimes := recordAccess tabId now (tabAccessTimes s);
       searchInput_value := searchInput_value s;
       debounceTimeout := debounceTimeout s;
       timers := timers s;
       next_timer_id := next_timer_id s;
       renders := renders s |}.

(** The user edits the search box: the box holds [value], and the
    [input] listener of [initSearch] dispatches [tabsearch] with it. *)
Definition onSearchInput (value : string) (now : Z) (s : State) : State :=
  onTabSearch value now
    {| tabAccessTimes := tabAccessTimes s;
       searchInput_value := value;
       debounceTimeout := debounceTimeout s;
       timers := timers s;
       next_timer_id := next_timer_id s;
       renders := renders s |}.

Inductive Event : Type :=
| TabUpdated
| TabCreated
| TabRemoved
| TabActivated (tabId : Z)
| SearchInput (value : string).

Definition dispatch (e : Event) (now : Z) (s : State) : State :=
  match e with
  | TabUpdated => onUpdatedListener now s
  | TabCreated => onCreatedListener now s
  | TabRemoved => onRemovedListener now s
  | TabActivated tabId => onActivatedListener tabId now s
  | SearchInput value => onSearchInput value now s
  end.

(** A timer runs: its callback calls [renderTabs]. *)
Definition fire (s : State) (t : Timer) : State :=
  let query := match callback t with
               | RenderSearchInput => searchInput_value s
               | RenderDetail detail => detail
               end in
  {| tabAccessTimes := tabAccessTimes s;
     searchInput_value := searchInput_value s;
     debounceTimeout := debounceTimeout s;
     timers := timers s;
     next_timer_id := next_timer_id s;
     renders := (renders s ++ [(deadline t, query)])%list |}.

(** The clock reaches [now]: every pending timer whose deadline has
    come runs, at its deadline, oldest first (all delays are equal, so
    creation order is deadline order). *)
Definition advance (now : Z) (s : State) : State :=
  let due := List.filter (fun t => deadline t <=? now) (timers s) in
  let later := List.filter (fun t => now <? deadline t) (timers s) in
  foldl fire
    {| tabAccessTimes := tabAccessTimes s;
       searchInput_value := searchInput_value s;
       debounceTimeout := debounceTimeout s;
       timers := later;
       next_timer_id := next_timer_id s;
       renders := renders s |}
    due.

(** An event arrives at time [te.1]. *)
Definition step (s : State) (te : Z * Event) : State :=
  dispatch te.2 te.1 (advance te.1 s).

(** A timed sequence of events, then the clock runs on to [finish]. *)
Definition run (s : State) (events : list (Z * Event)) (finish : Z) : State :=
  advance finish (foldl step s events).

(** The state once the [DOMContentLoaded] handler has returned. *)
Definition initial (search : string) : State :=
  {| tabAccessTimes := ∅;
     searchInput_value := search;
     debounceTimeout := None;
     timers := [];
     next_timer_id := 1;
     renders := [] |}.

(** Consecutive events are in time order and less than [300] apart. *)
Fixpoint burst (events : list (Z * Event)) : Prop :=
  match events with
  | [] => True
  | te :: rest =>
      match rest with
      | [] => True
      | te' :: _ => te.1 <= te'.1 /\ te'.1 - te.1 < 300
      end /\ burst rest
  end.

End Scheduler.

(** ** Remaining functions of the popup *)

(** An integer inside a template literal: its decimal digits, with a
    leading minus sign when negative. *)
Definition number_to_string (z : Z) : string :=
  NilZero.string_of_int (Z.to_int z).

(** [formatTimeAgo]; [now] is the reading of [Date.now()].  [null] and
    [0] are the falsy timestamps.  [Math.floor] of a quotient is [Z]'s
    division, which rounds down. *)
Definition formatTimeAgo (now : Z) (timestamp : option Z) : string :=
  match timestamp with
  | None => "Unknown"
  | Some ts =>
      if ts =? 0 then "Unknown"
      else
        let diff := now - ts in
        let seconds := diff / 1000 in
        let minutes := seconds / 60 in
        let hours := minutes / 60 in
        let days := hours / 24 in
        if seconds <? 60 then number_to_string seconds +:+ "s ago"
        else if minutes <? 60 then number_to_string minutes +:+ "m ago"
        else if hours <? 24 then number_to_string hours +:+ "h ago"
        else number_to_string days +:+ "d ago"
  end.

(** [loadSortPreference]: [get] is the outcome of
    [chrome.storage.local.get(SORT_PREFERENCE_KEY)], the slot's value or
    [None] when the slot was never written. *)
Definition loadSortPreference (get : outcome (option string)) : string :=
  match get with
  | Resolved (Some value) => JS.or_else value DEFAULT_SORT
  | Resolved None => DEFAULT_SORT
  | Rejected _ => DEFAULT_SORT
  end.

(** [saveSortPreference] as it acts on the slot: [set] is the outcome of
    [chrome.storage.local.set]; a rejection is logged and the slot keeps
    its value. *)
Definition saveSortPreference
    (sortBy : string) (set : outcome unit) (slot : option string) : option string :=
  match set with
  | Resolved _ => Some sortBy
  | Rejected _ => slot
  end.

(** The [unload] listener, on the scheduler's state:
    [clearTimeout(debounceTimeout)]. *)
Definition onUnload (s : Scheduler.State) : Scheduler.State :=
  {| Scheduler.tabAccessTimes := Scheduler.tabAccessTimes s;
     Scheduler.searchInput_value := Scheduler.searchInput_value s;
     Scheduler.debounceTimeout := Scheduler.debounceTimeout s;
     Scheduler.timers :=
       Scheduler.clearTimeout (Scheduler.debounceTimeout s) (Scheduler.timers s);
     Scheduler.next_timer_id := Scheduler.next_timer_id s;
     Scheduler.renders := Scheduler.renders s |}.

(** What the popup's handlers react to, apart from their timers: a
    browser or search event, or the return of the second [await] of a
    [switchToTab] that a double click on a tab started, with the
    outcomes of its two commands. *)
Inductive PopupEvent : Type :=
| Notified (e : Scheduler.Event)
| SwitchSettled (tabId : Z) (windows_update tabs_update : outcome unit).

(** The event [te.2] arrives at time [te.1]; [switchToTab] reads
    [Date.now()] at that time. *)
Definition popup_step (s : Scheduler.State) (te : Z * PopupEvent) : Scheduler.State :=
  match te.2 with
  | Notified e => Scheduler.step s (te.1, e)
  | SwitchSettled tabId windows_update tabs_update =>
      let s' := Scheduler.advance te.1 s in
      {| Scheduler.tabAccessTimes :=
           switchToTab windows_update tabs_update tabId te.1
             (Scheduler.tabAccessTimes s');
         Scheduler.searchInput_value := Scheduler.searchInput_value s';
         Scheduler.debounceTimeout := Scheduler.debounceTimeout s';
         Scheduler.timers := Scheduler.timers s';
         Scheduler.next_timer_id := Scheduler.next_timer_id s';
         Scheduler.renders := Scheduler.renders s' |}
  end.

(** * Vocabulary of the statements *)

(** ** Preference strings *)

(** [c] occurs in [s]. *)
Fixpoint has_char (c : ascii) (s : string) : bool :=
  match s with
  | EmptyString => false
  | String a s' => Ascii.eqb a c || has_char c s'
  end.

(** ** Order of the sorted windows *)

(** [a] may stand before [b] under [tab-count-asc]: fewer tabs, or as
    many tabs and not an unfocused window before a focused one. *)
Definition tab_count_asc_order (a b : Window) : Prop :=
  tab_count a < tab_count b \/
  (tab_count a = tab_count b /\ (focused b = true -> focused a = true)).

(** The same under [tab-count-desc]: more tabs first. *)
Definition tab_count_desc_order (a b : Window) : Prop :=
  tab_count b < tab_count a \/
  (tab_count a = tab_count b /\ (focused b = true -> focused a = true)).

(** [k] is the key of [w] for the [last-accessed] sort: for a window
    with tabs, the greatest timestamp among its tabs, a tab without a
    timestamp counting [0]; for a window without tabs, [-Infinity]. *)
Definition is_access_key (w : Window) (k : JS.num) : Prop :=
  match tabs w with
  | [] => k = JS.NegInf
  | _ :: _ =>
      exists m, k = JS.Fin m /\
                Forall (fun t => default 0 (lastAccessed t) <= m) (tabs w) /\
                Exists (fun t => default 0 (lastAccessed t) = m) (tabs w)
  end.

(** Most recently used first. *)
Definition last_accessed_desc_order (a b : Window) : Prop :=
  JS.le (maxAccess b) (maxAccess a).

(** Least recently used first. *)
Definition last_accessed_asc_order (a b : Window) : Prop :=
  JS.le (maxAccess a) (maxAccess b).

(** The type part of [sortBy] selects the [default] branch. *)
Definition unknown_type (sortBy : string) : Prop :=
  sortType_of sortBy <> "tab-count" /\
  sortType_of sortBy <> "focused" /\
  sortType_of sortBy <> "alphabetical" /\
  sortType_of sortBy <> "last-accessed".

(** ** The search filter *)

Definition sum_Z (l : list Z) : Z := foldr Z.add 0 l.

(** The number of tabs in all windows. *)
Definition total_tabs (windows : list Window) : Z :=
  sum_Z (map tab_count windows).

Definition has_tabs (w : Window) : bool :=
  match tabs w with
  | [] => false
  | _ :: _ => true
  end.

(** The group has all the tabs of its window. *)
Definition full_group (g : WindowGroup) : Prop :=
  wg_tabs g = tabs (wg_window g).

Definition is_whitespace (c : ascii) : bool :=
  let n := N_of_ascii c in
  ((n =? 32) || ((9 <=? n) && (n <=? 13)))%N.

(** The string consists of whitespace characters only (it may be
    empty). *)
Fixpoint whitespace_only (s : string) : bool :=
  match s with
  | EmptyString => true
  | String c s' => is_whitespace c && whitespace_only s'
  end.

Section FilterVocabulary.

Variable toLowerCase : string -> string.

(** The lower-cased title or the lower-cased address of the tab
    contains [query]. *)
Definition contains_query (query : string) (tab : Tab) : bool :=
  JS.includes (toLowerCase (title tab)) query
  || JS.includes (toLowerCase (url tab)) query.

(** Some tab of the window matches. *)
Definition has_match (query : string) (w : Window) : bool :=
  existsb (matches toLowerCase query) (tabs w).

Definition group_of (query : string) (collapsed : gmap Z bool) (w : Window)
  : WindowGroup :=
  {| wg_window := w;
     wg_tabs := filteredTabs toLowerCase query w;
     wg_collapsed := isCollapsed collapsed (windowId w) |}.

(** The first sentence of the search filter's contract, as the
    specification words it: a query of whitespace only keeps every
    window with all its tabs. *)
Definition whitespace_matches_everything : Prop :=
  forall (windows : list Window) (query : string) (collapsed : gmap Z bool),
    whitespace_only query = true ->
    let r := filterWindows toLowerCase windows query collapsed in
    map wg_window r.1.1 = windows /\
    Forall full_group r.1.1 /\
    r.1.2 = total_tabs windows.

End FilterVocabulary.

(** ** Collapsed windows *)

(** The popup is opened anew over the storage an earlier popup left:
    its variable [collapsedWindows] holds [memory] until
    [loadCollapsedState] runs (the source initialises it to the empty
    object), and nothing of the earlier popup's memory is carried
    over. *)
Definition reopen (memory : gmap Z bool) (s : CollapseStore) : CollapseStore :=
  {| collapsedWindows := memory;
     stored := stored s;
     writes := writes s |}.

(** No entry for [w] anywhere: in memory, in storage, in flight. *)
Definition never_recorded (w : Z) (s : CollapseStore) : Prop :=
  collapsedWindows s !! w = None /\
  (forall m, stored s = Some m -> m !! w = None) /\
  Forall (fun m : gmap Z bool => m !! w = None) (writes s).

(** ** Live updates *)

Import Scheduler.

(** What the callback of [t] passes to [renderTabs] in state [s]. *)
Definition pending_query (s : State) (t : Timer) : string :=
  match callback t with
  | RenderSearchInput => searchInput_value s
  | RenderDetail detail => detail
  end.

(** Exactly one timer is pending; it is the one [debounceTimeout] names,
    it is due at [d] and will render the current search text. *)
Definition armed (s : State) (d : Z) : Prop :=
  exists t, timers s = [t] /\ deadline t = d /\
            debounceTimeout s = Some (timer_id t) /\
            pending_query s t = searchInput_value s.

(** At time [now] nothing is due: no timer is pending, or the armed one
    is due later. *)
Definition quiet (s : State) (now : Z) : Prop :=
  timers s = [] \/ exists d, armed s d /\ now < d.

(** ** A host instance for concrete runs: ASCII lower-casing and
       comparison by character code *)

Definition ascii_toLower (c : ascii) : ascii :=
  let n := N_of_ascii c in
  if ((65 <=? n) && (n <=? 90))%N then ascii_of_N (n + 32) else c.

Fixpoint ascii_toLowerCase (s : string) : string :=
  match s with
  | EmptyString => EmptyString
  | String c s' => String (ascii_toLower c) (ascii_toLowerCase s')
  end.

Definition code_localeCompare (a b : string) : Z :=
  match String.compare a b with
  | Lt => -1
  | Eq => 0
  | Gt => 1
  end.

Definition sample_tab (i : Z) (ttl : string) (address : string) (la : option Z) : Tab :=
  {| id := i; title := ttl; url := address; favIconUrl := DEFAULT_FAVICON;
     active := false; pinned := false; groupId := TAB_GROUP_ID_NONE;
     group := None; lastAccessed := la; tab_windowId := 0 |}.

Definition sample_window (i : Z) (f : bool) (ts : list Tab) : Window :=
  {| windowId := i; focused := f; tabs := ts |}.

(** ** Further vocabulary *)

(** Under [focused-asc]: a focused window before an unfocused one, and
    among windows of the same focus, fewer tabs first. *)
Definition focused_asc_order (a b : Window) : Prop :=
  (focused a = true /\ focused b = false) \/
  (focused a = focused b /\ tab_count a <= tab_count b).

(** Under [focused-desc]: the focused window after the unfocused ones. *)
Definition focused_desc_order (a b : Window) : Prop :=
  (focused a = false /\ focused b = true) \/
  (focused a = focused b /\ tab_count a <= tab_count b).

(** What ECMAScript asks of a comparator, for [localeCompare]: the two
    orders of a pair get opposite signs, and "not after" is transitive. *)
Definition consistent_comparator (compare : string -> string -> Z) : Prop :=
  (forall a b, compare a b < 0 <-> 0 < compare b a) /\
  (forall a b c, compare a b <= 0 -> compare b c <= 0 -> compare a c <= 0).

(** The title a window is sorted by: that of its first tab, or
    [Untitled] when the window has no tab or the first title is empty. *)
Definition window_title (w : Window) : string :=
  match tabs w with
  | [] => "Untitled"
  | t :: _ => if String.eqb (title t) "" then "Untitled" else title t
  end.

Definition alphabetical_asc_order
    (toLowerCase : string -> string) (localeCompare : string -> string -> Z)
    (a b : Window) : Prop :=
  localeCompare (first_title toLowerCase a) (first_title toLowerCase b) <= 0.

Definition alphabetical_desc_order
    (toLowerCase : string -> string) (localeCompare : string -> string -> Z)
    (a b : Window) : Prop :=
  localeCompare (first_title toLowerCase b) (first_title toLowerCase a) <= 0.

(** [P w t] holds of every tab [t] of every window [w]. *)
Definition every_tab (P : Window -> Tab -> Prop) (windows : list Window) : Prop :=
  Forall (fun w => Forall (P w) (tabs w)) windows.

(** A decimal digit or the minus sign. *)
Definition digit_or_minus (c : ascii) : bool :=
  let n := N_of_ascii c in
  ((n =? 45) || ((48 <=? n) && (n <=? 57)))%N.

(** A timestamp that [if (tab.lastAccessed)] and [formatTimeAgo] take
    for known: a number other than [0]. *)
Definition known_time (timestamp : option Z) : Prop :=
  exists ts, timestamp = Some ts /\ ts <> 0.

(** The group reported last under the identifier [k]. *)
Definition last_group_with (k : Z) (tabGroups : list ChromeGroup) : option ChromeGroup :=
  foldl (fun found g => if cg_id g =? k then Some g else found) None tabGroups.

Definition sample_chrome_tab (i : Z) (ttl : string) (act : bool) (gid : Z) : ChromeTab :=
  {| ct_id := i; ct_title := ttl; ct_url := "https://example.org/"; ct_favIconUrl := "";
     ct_active := act; ct_pinned := false; ct_groupId := gid |}.

Definition sample_chrome_window (i : Z) (f : bool) (ts : list ChromeTab) : ChromeWindow :=
  {| cw_id := i; cw_focused := f; cw_tabs := ts |}.

(** A window group read back as a window: the window's identity with
    the tabs the group shows. *)
Definition shown_window (g : WindowGroup) : Window :=
  {| windowId := windowId (wg_window g);
     focused := focused (wg_window g);
     tabs := wg_tabs g |}.

(** At most one timer is pending, and it is the one [debounceTimeout]
    names. *)
Definition single_armed (s : State) : Prop :=
  timers s = [] \/ exists t, timers s = [t] /\ debounceTimeout s = Some (timer_id t).

(** The time of the first event, or [finish] when there is none. *)
Definition first_time (finish : Z) (events : list (Z * Event)) : Z :=
  match events with
  | [] => finish
  | te :: _ => te.1
  end.

(** Every event is followed by the next one, and the last one by
    [finish], no sooner than [300] later. *)
Fixpoint spaced (finish : Z) (events : list (Z * Event)) : Prop :=
  match events with
  | [] => True
  | te :: rest => te.1 + 300 <= first_time finish rest /\ spaced finish rest
  end.

(** The time of the last write of the tracker for [tabId] among the
    events: an activation of [tabId], or a [switchToTab] to [tabId]
    both of whose commands succeeded. *)
Definition last_access_write (tabId : Z) (events : list (Z * PopupEvent)) : option Z :=
  foldl (fun found te =>
           match te.2 with
           | Notified (TabActivated i) => if i =? tabId then Some te.1 else found
           | SwitchSettled i (Resolved _) (Resolved _) =>
               if i =? tabId then Some te.1 else found
           | _ => found
           end)
        None events.

(** The newest snapshot of the collapse map on its way to or in the
    storage: the last request issued, or the stored value when none is
    outstanding. *)
Definition newest_snapshot (s : CollapseStore) : gmap Z bool :=
  default (default ∅ (stored s)) (last (writes s)).

(** * Proofs *)

(** ** The sort *)

Section SortFacts.

Context {A : Type} (comparefn : A -> A -> JS.num).

Lemma insert_Permutation (x : A) (l : list A) :
  JS.insert comparefn x l ≡ₚ x :: l.
Proof.
  induction l as [|y l IH]; simpl; [done|].
  destruct (JS.is_negative _); [done|].
  rewrite IH. apply Permutation_swap.
Qed.

Lemma sort_from_Permutation (l acc : list A) :
  foldl (fun acc x => JS.insert comparefn x acc) acc l ≡ₚ (acc ++ l)%list.
Proof.
  revert acc; induction l as [|x l IH]; intros acc; simpl.
  - by rewrite app_nil_r.
  - rewrite IH, insert_Permutation. simpl. apply Permutation_middle.
Qed.

Lemma sort_Permutation (l : list A) : JS.sort comparefn l ≡ₚ l.
Proof. unfold JS.sort. by rewrite sort_from_Permutation. Qed.

(** [R x y] reads "x may stand before y".  It is enough that every
    answer of the comparator is sound for [R]: a negative answer for
    [(x, y)] allows [x] before [y], any other answer allows [y] before
    [x]. *)
Context (R : A -> A -> Prop) `{!Transitive R}.
Hypothesis negative_sound :
  forall x y, JS.is_negative (JS.SortCompare comparefn x y) = true -> R x y.
Hypothesis other_sound :
  forall x y, JS.is_negative (JS.SortCompare comparefn x y) = false -> R y x.

Lemma insert_StronglySorted (x : A) (l : list A) :
  StronglySorted R l -> StronglySorted R (JS.insert comparefn x l).
Proof.
  induction 1 as [|y l Hs IH Hy]; simpl.
  - repeat constructor.
  - destruct (JS.is_negative _) eqn:Hc.
    + apply negative_sound in Hc.
      constructor; [by constructor|].
      constructor; [done|].
      eapply Forall_impl; [exact Hy|]. intros z Hz. by transitivity y.
    + apply other_sound in Hc.
      constructor; [done|].
      rewrite insert_Permutation. by constructor.
Qed.

Lemma sort_from_StronglySorted (l acc : list A) :
  StronglySorted R acc ->
  StronglySorted R (foldl (fun acc x => JS.insert comparefn x acc) acc l).
Proof.
  revert acc; induction l as [|x l IH]; intros acc Hacc; simpl; [done|].
  by apply IH, insert_StronglySorted.
Qed.

Lemma sort_StronglySorted (l : list A) : StronglySorted R (JS.sort comparefn l).
Proof. apply sort_from_StronglySorted. constructor. Qed.

End SortFacts.

(** ** Splitting the preference string *)

Lemma strlen_String (a : ascii) (s : string) :
  JS.strlen (String a s) = JS.strlen s + 1.
Proof. unfold JS.strlen. simpl String.length. lia. Qed.

Lemma append_nil (b : string) : "" +:+ b = b.
Proof. reflexivity. Qed.

Lemma append_String (x : ascii) (a b : string) :
  String x a +:+ b = String x (a +:+ b).
Proof. reflexivity. Qed.

Lemma strlen_append (a b : string) :
  JS.strlen (a +:+ b) = JS.strlen a + JS.strlen b.
Proof.
  induction a as [|c a IH].
  - rewrite append_nil. change (JS.strlen "") with 0. lia.
  - rewrite append_String, !strlen_String, IH. lia.
Qed.

Lemma strlen_nonneg (s : string) : 0 <= JS.strlen s.
Proof. unfold JS.strlen. lia. Qed.

Lemma lastIndexOf_from_absent (c : ascii) (s : string) (i found : Z) :
  has_char c s = false -> JS.lastIndexOf_from c s i found = found.
Proof.
  revert i found; induction s as [|a s IH]; intros i found H; simpl in *; [done|].
  apply orb_false_iff in H as [Ha Hs]. rewrite Ha. by apply IH.
Qed.

Lemma lastIndexOf_from_append (c : ascii) (a b : string) (i found : Z) :
  JS.lastIndexOf_from c (a +:+ b) i found =
  JS.lastIndexOf_from c b (i + JS.strlen a) (JS.lastIndexOf_from c a i found).
Proof.
  revert i found; induction a as [|x a IH]; intros i found.
  - rewrite append_nil. simpl. f_equal. change (JS.strlen "") with 0. lia.
  - rewrite append_String. simpl. rewrite IH, strlen_String. f_equal. lia.
Qed.

Lemma take_append (a b : string) : JS.take (String.length a) (a +:+ b) = a.
Proof.
  induction a as [|x a IH].
  - by destruct b.
  - rewrite append_String. simpl. by rewrite IH.
Qed.

Lemma drop_append (a b : string) : JS.drop (String.length a) (a +:+ b) = b.
Proof.
  induction a as [|x a IH].
  - by destruct b.
  - rewrite append_String. simpl. exact IH.
Qed.

Lemma take_all (s : string) : JS.take (String.length s) s = s.
Proof. induction s as [|x s IH]; simpl; [done|by rewrite IH]. Qed.

(** A preference [type-direction] whose direction has no dash splits at
    that dash. *)
Lemma lastIndexOf_dash (type direction : string) :
  has_char "-" direction = false ->
  JS.lastIndexOf (type +:+ String "-" direction) "-" = JS.strlen type.
Proof.
  intros H. unfold JS.lastIndexOf.
  rewrite lastIndexOf_from_append. simpl.
  rewrite lastIndexOf_from_absent by done. lia.
Qed.

Lemma sortType_of_split (type direction : string) :
  has_char "-" direction = false ->
  sortType_of (type +:+ String "-" direction) = type.
Proof.
  intros H. unfold sortType_of, JS.substring. rewrite lastIndexOf_dash by done.
  rewrite strlen_append, strlen_String.
  pose proof (strlen_nonneg type). pose proof (strlen_nonneg direction).
  replace (Z.min 0 _) with 0 by lia.
  replace (Z.min (JS.strlen type) _) with (JS.strlen type) by lia.
  replace (Z.max 0 0) with 0 by lia.
  replace (Z.max 0 (JS.strlen type)) with (JS.strlen type) by lia.
  replace (Z.min 0 (JS.strlen type)) with 0 by lia.
  replace (Z.max 0 (JS.strlen type)) with (JS.strlen type) by lia.
  simpl JS.drop. rewrite Z.sub_0_r. unfold JS.strlen. rewrite Nat2Z.id.
  apply take_append.
Qed.

Lemma direction_of_split (type direction : string) :
  has_char "-" direction = false ->
  direction_of (type +:+ String "-" direction) = direction.
Proof.
  intros H. unfold direction_of, JS.substring_from, JS.substring.
  rewrite lastIndexOf_dash by done.
  rewrite strlen_append, strlen_String.
  pose proof (strlen_nonneg type). pose proof (strlen_nonneg direction).
  set (n := JS.strlen type) in *. set (m := JS.strlen direction) in *.
  replace (Z.min (n + 1) (n + (m + 1))) with (n + 1) by lia.
  replace (Z.min (n + (m + 1)) (n + (m + 1))) with (n + (m + 1)) by lia.
  replace (Z.max 0 (n + 1)) with (n + 1) by lia.
  replace (Z.max 0 (n + (m + 1))) with (n + (m + 1)) by lia.
  replace (Z.min (n + 1) (n + (m + 1))) with (n + 1) by lia.
  replace (Z.max (n + 1) (n + (m + 1))) with (n + (m + 1)) by lia.
  replace (n + (m + 1) - (n + 1)) with m by lia.
  replace (Z.to_nat (n + 1)) with (String.length (type +:+ "-")).
  2:{ subst n. unfold JS.strlen.
      assert (JS.strlen (type +:+ "-") = JS.strlen type + 1) as E
        by (rewrite strlen_append; reflexivity).
      unfold JS.strlen in E. lia. }
  replace (type +:+ String "-" direction) with ((type +:+ "-") +:+ direction).
  2:{ clear. induction type as [|x t IH]; [done|].
      rewrite !append_String. by rewrite IH. }
  rewrite drop_append. subst m. unfold JS.strlen. rewrite Nat2Z.id.
  apply take_all.
Qed.

(** ** Order of the sorted windows *)

#[local] Instance tab_count_asc_order_trans : Transitive tab_count_asc_order.
Proof. unfold tab_count_asc_order. intros a b c [?|[? ?]] [?|[? ?]]; [lia..|]. right. split; [lia|tauto]. Qed.

#[local] Instance tab_count_desc_order_trans : Transitive tab_count_desc_order.
Proof. unfold tab_count_desc_order. intros a b c [?|[? ?]] [?|[? ?]]; [lia..|]. right. split; [lia|tauto]. Qed.

Lemma JS_le_trans (a b c : JS.num) : JS.le a b -> JS.le b c -> JS.le a c.
Proof. destruct a, b, c; simpl; try tauto; lia. Qed.

#[local] Instance last_accessed_desc_order_trans : Transitive last_accessed_desc_order.
Proof. intros a b c H1 H2. exact (JS_le_trans _ _ _ H2 H1). Qed.

#[local] Instance last_accessed_asc_order_trans : Transitive last_accessed_asc_order.
Proof. intros a b c H1 H2. exact (JS_le_trans _ _ _ H1 H2). Qed.

(** [maxAccess] is [-Infinity] for a window without tabs and an integer
    otherwise: never NaN, never [+Infinity]. *)
Lemma maxAccess_cases (w : Window) :
  (tabs w = [] /\ maxAccess w = JS.NegInf) \/
  (tabs w <> [] /\ exists z, maxAccess w = JS.Fin z).
Proof.
  unfold maxAccess. destruct (tabs w) as [|t ts]; simpl; [by left|].
  right. split; [done|]. eauto.
Qed.

Lemma foldl_max_ge (xs : list Z) (x : Z) : x <= foldl Z.max x xs.
Proof.
  revert x; induction xs as [|y xs IH]; intros x; simpl; [lia|].
  specialize (IH (Z.max x y)). lia.
Qed.

Lemma foldl_max_upper (xs : list Z) (x y : Z) : y ∈ xs -> y <= foldl Z.max x xs.
Proof.
  revert x; induction xs as [|z xs IH]; intros x Hy; simpl.
  - by apply elem_of_nil in Hy.
  - apply elem_of_cons in Hy as [->|Hy]; [|by apply IH].
    pose proof (foldl_max_ge xs (Z.max x z)). lia.
Qed.

Lemma foldl_max_attained (xs : list Z) (x : Z) :
  foldl Z.max x xs = x \/ foldl Z.max x xs ∈ xs.
Proof.
  revert x; induction xs as [|z xs IH]; intros x; simpl; [by left|].
  destruct (IH (Z.max x z)) as [E|E].
  - rewrite E. destruct (Z.max_spec x z) as [[_ ->]|[_ ->]]; [right; left|by left].
  - right. by right.
Qed.

(** [maxAccess] of a window with tabs is the greatest of its tabs'
    timestamps, a missing timestamp counting as [0]. *)
Lemma maxAccess_is_maximum (w : Window) (t : Tab) :
  t ∈ tabs w ->
  exists m, maxAccess w = JS.Fin m /\
            default 0 (lastAccessed t) <= m /\
            exists t', t' ∈ tabs w /\ m = default 0 (lastAccessed t').
Proof.
  unfold maxAccess. destruct (tabs w) as [|t0 ts]; intros Ht; simpl.
  - by apply elem_of_nil in Ht.
  - eexists; split; [done|]. split.
    + apply elem_of_cons in Ht as [->|Ht]; [apply foldl_max_ge|].
      apply foldl_max_upper, list_elem_of_In, in_map_iff.
      exists t. split; [done|by apply list_elem_of_In].
    + destruct (foldl_max_attained (map (fun t => default 0 (lastAccessed t)) ts)
                  (default 0 (lastAccessed t0))) as [E|E].
      * exists t0. split; [by left|done].
      * apply list_elem_of_In, in_map_iff in E as (t' & E & Ht').
        exists t'. split; [right; by apply list_elem_of_In|done].
Qed.

Lemma maxAccess_key (w : Window) : is_access_key w (maxAccess w).
Proof.
  unfold is_access_key. destruct (tabs w) as [|t0 ts] eqn:E; [unfold maxAccess; by rewrite E|].
  rewrite <- E.
  destruct (maxAccess_is_maximum w t0) as (m & Hm & _ & _); [rewrite E; by left|].
  exists m. split; [done|]. split.
  - apply Forall_forall. intros t Ht.
    destruct (maxAccess_is_maximum w t Ht) as (m' & Hm' & Hle & _). congruence.
  - destruct (maxAccess_is_maximum w t0) as (m' & Hm' & _ & t' & Ht' & Heq);
      [rewrite E; by left|].
    apply Exists_exists. exists t'. split; [done|]. congruence.
Qed.

Section SortClaims.

Variable toLowerCase : string -> string.
Variable localeCompare : string -> string -> Z.

Lemma sortWindows_Permutation (windows : list Window) (sortBy : string) :
  sortWindows toLowerCase localeCompare windows sortBy ≡ₚ windows.
Proof.
  unfold sortWindows. destruct (comparator _ _ _ _); [|done].
  apply sort_Permutation.
Qed.

Lemma tab_count_asc_sound (x y : Window) :
  (JS.is_negative (JS.SortCompare (compare_tab_count "asc") x y) = true ->
   tab_count_asc_order x y) /\
  (JS.is_negative (JS.SortCompare (compare_tab_count "asc") x y) = false ->
   tab_count_asc_order y x).
Proof.
  unfold JS.SortCompare, compare_tab_count, tab_count_asc_order. simpl String.eqb.
  destruct (Z.eqb_spec (tab_count x - tab_count y) 0) as [E|E]; simpl.
  - destruct (focused x) eqn:Fx, (focused y) eqn:Fy; simpl;
      split; intros; try done; right; (split; [lia|done]).
  - split; intros H; [apply Z.ltb_lt in H|apply Z.ltb_ge in H]; left; lia.
Qed.

Lemma tab_count_desc_sound (direction : string) (x y : Window) :
  String.eqb direction "asc" = false ->
  (JS.is_negative (JS.SortCompare (compare_tab_count direction) x y) = true ->
   tab_count_desc_order x y) /\
  (JS.is_negative (JS.SortCompare (compare_tab_count direction) x y) = false ->
   tab_count_desc_order y x).
Proof.
  intros Hd.
  unfold JS.SortCompare, compare_tab_count, tab_count_desc_order. rewrite Hd.
  destruct (Z.eqb_spec (tab_count x - tab_count y) 0) as [E|E]; simpl.
  - destruct (focused x) eqn:Fx, (focused y) eqn:Fy; simpl;
      split; intros; try done; right; (split; [lia|done]).
  - split; intros H; [apply Z.ltb_lt in H|apply Z.ltb_ge in H]; left; lia.
Qed.

(** C5: [tab-count-asc] puts the windows in ascending order of tab
    count, [tab-count-desc] in descending order, and under both, among
    windows with as many tabs, no unfocused window stands before a
    focused one.  Both outputs are rearrangements of the input. *)
Theorem C5_tab_count_order (windows : list Window) :
  sortWindows toLowerCase localeCompare windows "tab-count-asc" ≡ₚ windows /\
  StronglySorted tab_count_asc_order
    (sortWindows toLowerCase localeCompare windows "tab-count-asc") /\
  sortWindows toLowerCase localeCompare windows "tab-count-desc" ≡ₚ windows /\
  StronglySorted tab_count_desc_order
    (sortWindows toLowerCase localeCompare windows "tab-count-desc").
Proof.
  split; [apply sortWindows_Permutation|].
  split.
  { change (sortWindows toLowerCase localeCompare windows "tab-count-asc")
      with (JS.sort (compare_tab_count "asc") windows).
    apply sort_StronglySorted; [apply _|..]; intros x y; apply tab_count_asc_sound. }
  split; [apply sortWindows_Permutation|].
  change (sortWindows toLowerCase localeCompare windows "tab-count-desc")
    with (JS.sort (compare_tab_count "desc") windows).
  apply sort_StronglySorted; [apply _|..]; intros x y;
    by apply tab_count_desc_sound.
Qed.

Lemma last_accessed_desc_sound (direction : string) (x y : Window) :
  String.eqb direction "asc" = false ->
  (JS.is_negative (JS.SortCompare (compare_last_accessed direction) x y) = true ->
   last_accessed_desc_order x y) /\
  (JS.is_negative (JS.SortCompare (compare_last_accessed direction) x y) = false ->
   last_accessed_desc_order y x).
Proof.
  intros Hd.
  unfold JS.SortCompare, compare_last_accessed, last_accessed_desc_order. rewrite Hd.
  destruct (maxAccess_cases x) as [[_ ->]|[_ [a ->]]],
           (maxAccess_cases y) as [[_ ->]|[_ [b ->]]]; simpl;
    split; intros H; try done;
    [apply Z.ltb_lt in H|apply Z.ltb_ge in H]; lia.
Qed.

Lemma last_accessed_asc_sound (x y : Window) :
  (JS.is_negative (JS.SortCompare (compare_last_accessed "asc") x y) = true ->
   last_accessed_asc_order x y) /\
  (JS.is_negative (JS.SortCompare (compare_last_accessed "asc") x y) = false ->
   last_accessed_asc_order y x).
Proof.
  unfold JS.SortCompare, compare_last_accessed, last_accessed_asc_order.
  simpl String.eqb.
  destruct (maxAccess_cases x) as [[_ ->]|[_ [a ->]]],
           (maxAccess_cases y) as [[_ ->]|[_ [b ->]]]; simpl;
    split; intros H; try done;
    [apply Z.ltb_lt in H|apply Z.ltb_ge in H]; lia.
Qed.

(** C2: [last-accessed-desc] orders the windows by their key from
    largest to smallest and [last-accessed-asc] from smallest to
    largest, the key [maxAccess] of a window being the greatest
    timestamp among the window's tabs with [0] for a tab without one
    (and [-Infinity] for a window without tabs).  Both outputs are
    rearrangements of the input. *)
Theorem C2_last_accessed_order (windows : list Window) :
  (forall w, is_access_key w (maxAccess w)) /\
  sortWindows toLowerCase localeCompare windows "last-accessed-desc" ≡ₚ windows /\
  StronglySorted last_accessed_desc_order
    (sortWindows toLowerCase localeCompare windows "last-accessed-desc") /\
  sortWindows toLowerCase localeCompare windows "last-accessed-asc" ≡ₚ windows /\
  StronglySorted last_accessed_asc_order
    (sortWindows toLowerCase localeCompare windows "last-accessed-asc").
Proof.
  split; [apply maxAccess_key|].
  split; [apply sortWindows_Permutation|].
  split.
  { change (sortWindows toLowerCase localeCompare windows "last-accessed-desc")
      with (JS.sort (compare_last_accessed "desc") windows).
    apply sort_StronglySorted; [apply _|..]; intros x y;
      by apply last_accessed_desc_sound. }
  split; [apply sortWindows_Permutation|].
  change (sortWindows toLowerCase localeCompare windows "last-accessed-asc")
    with (JS.sort (compare_last_accessed "asc") windows).
  apply sort_StronglySorted; [apply _|..]; intros x y;
    apply last_accessed_asc_sound.
Qed.

Lemma comparator_unknown (sortBy direction : string) :
  unknown_type sortBy ->
  comparator toLowerCase localeCompare (sortType_of sortBy) direction = None.
Proof.
  intros (H1 & H2 & H3 & H4). unfold comparator.
  apply String.eqb_neq in H1, H2, H3, H4. by rewrite H1, H2, H3, H4.
Qed.

(** C6: when the type part of the preference is none of the four known
    types, the windows come back in their input order; and for every
    preference the array passed in still holds what it held (the
    result is a fresh array, every other array is as before), the
    result being a rearrangement of the input. *)
Theorem C6_unknown_type_and_input_kept
    (h : gmap positive (list Window)) (windows : positive)
    (ws : list Window) (sortBy : string) :
  h !! windows = Some ws ->
  let result := sortWindows_store toLowerCase localeCompare h windows sortBy in
  result.1 !! windows = Some ws /\
  result.1 !! result.2 = Some (sortWindows toLowerCase localeCompare ws sortBy) /\
  (forall r, r <> result.2 -> result.1 !! r = h !! r) /\
  sortWindows toLowerCase localeCompare ws sortBy ≡ₚ ws /\
  (unknown_type sortBy -> sortWindows toLowerCase localeCompare ws sortBy = ws).
Proof.
  intros Hws result.
  assert (windows <> fresh (dom h)) as Hfresh.
  { intros E. apply (is_fresh (dom h)). rewrite <- E.
    apply elem_of_dom. by exists ws. }
  subst result. unfold sortWindows_store, sortWindows. rewrite Hws. simpl.
  split; [|split; [|split; [|split]]].
  - destruct (comparator _ _ _ _); simpl;
      rewrite ?lookup_insert_ne by done; by rewrite ?lookup_insert_ne by done.
  - destruct (comparator _ _ _ _); simpl; by rewrite !lookup_insert_eq.
  - intros r Hr. destruct (comparator _ _ _ _); simpl in *;
      rewrite ?lookup_insert_ne by done; by rewrite ?lookup_insert_ne by done.
  - apply sortWindows_Permutation.
  - intros Hu. fold (sortWindows toLowerCase localeCompare ws sortBy).
    unfold sortWindows. by rewrite comparator_unknown.
Qed.

(** C10: for the types [tab-count], [alphabetical] and [last-accessed],
    a direction without a dash that is not exactly [asc] sorts exactly
    as [desc] does. *)
Theorem C10_direction_other_than_asc
    (type direction : string) (windows : list Window) :
  type = "tab-count" \/ type = "alphabetical" \/ type = "last-accessed" ->
  has_char "-" direction = false ->
  direction <> "asc" ->
  sortWindows toLowerCase localeCompare windows (type +:+ "-" +:+ direction) =
  sortWindows toLowerCase localeCompare windows (type +:+ "-desc").
Proof.
  intros Ht Hdash Hd. apply String.eqb_neq in Hd.
  unfold sortWindows.
  change (type +:+ "-" +:+ direction) with (type +:+ String "-" direction).
  change (type +:+ "-desc") with (type +:+ String "-" "desc").
  rewrite !sortType_of_split, !direction_of_split by done.
  destruct Ht as [-> | [-> | ->]]; unfold comparator; simpl;
    unfold compare_tab_count, compare_alphabetical, compare_last_accessed;
    by rewrite Hd.
Qed.

End SortClaims.

Lemma C6_witness :
  let w1 := sample_window 1 false [sample_tab 10 "b" "" None; sample_tab 11 "c" "" None] in
  let w2 := sample_window 2 true [sample_tab 20 "a" "" (Some 5)] in
  ({[ 1%positive := [w1; w2] ]} : gmap positive (list Window)) !! 1%positive
    = Some [w1; w2] /\
  unknown_type "recent-asc" /\
  sortWindows ascii_toLowerCase code_localeCompare [w1; w2] "recent-asc" = [w1; w2].
Proof.
  intros w1 w2.
  assert (({[ 1%positive := [w1; w2] ]} : gmap positive (list Window)) !! 1%positive
          = Some [w1; w2]) as H by reflexivity.
  assert (unknown_type "recent-asc") as U by (vm_compute; repeat split; discriminate).
  split; [exact H|]. split; [exact U|].
  exact (proj2 (proj2 (proj2 (proj2
    (C6_unknown_type_and_input_kept ascii_toLowerCase code_localeCompare
       _ 1%positive [w1; w2] "recent-asc" H)))) U).
Defined.

Lemma C10_witness :
  let ws := [sample_window 1 false [sample_tab 10 "b" "" None];
             sample_window 2 false [sample_tab 20 "a" "" None; sample_tab 21 "c" "" None]] in
  has_char "-" "DESC" = false /\
  "DESC" <> "asc" /\
  sortWindows ascii_toLowerCase code_localeCompare ws ("tab-count" +:+ "-" +:+ "DESC") =
  sortWindows ascii_toLowerCase code_localeCompare ws ("tab-count" +:+ "-desc").
Proof.
  intros ws.
  split; [reflexivity|]. split; [discriminate|].
  apply C10_direction_other_than_asc; [by left|reflexivity|discriminate].
Defined.

(** ** The search filter *)

Section FilterClaims.

Variable toLowerCase : string -> string.

Lemma filter_nonempty_existsb {X} (p : X -> bool) (l : list X) :
  (0 <? Z.of_nat (length (List.filter p l))) = existsb p l.
Proof.
  induction l as [|x l IH]; simpl; [done|].
  destruct (p x); simpl; [|done].
  apply Z.ltb_lt. lia.
Qed.

Lemma retained_has_match (query : string) (w : Window) :
  (0 <? Z.of_nat (length (filteredTabs toLowerCase query w))) = has_match toLowerCase query w.
Proof. apply filter_nonempty_existsb. Qed.

Lemma render_window_spec
    (query : string) (collapsed : gmap Z bool)
    (n : Z) (gs : list WindowGroup) (w : Window) :
  render_window toLowerCase query collapsed (n, gs) w =
  if has_match toLowerCase query w
  then (n + Z.of_nat (length (filteredTabs toLowerCase query w)),
        (gs ++ [group_of toLowerCase query collapsed w])%list)
  else (n, gs).
Proof.
  unfold render_window. rewrite <- retained_has_match. simpl.
  destruct (Z.eqb_spec (Z.of_nat (length (filteredTabs toLowerCase query w))) 0) as [E|E].
  - rewrite E. done.
  - replace (0 <? _) with true; [done|]. symmetry. apply Z.ltb_lt. lia.
Qed.

Lemma render_fold
    (query : string) (collapsed : gmap Z bool)
    (ws : list Window) (n : Z) (gs : list WindowGroup) :
  foldl (render_window toLowerCase query collapsed) (n, gs) ws =
  (n + sum_Z (map (fun g => Z.of_nat (length (wg_tabs g)))
                  (map (group_of toLowerCase query collapsed) (List.filter (has_match toLowerCase query) ws))),
   (gs ++ map (group_of toLowerCase query collapsed) (List.filter (has_match toLowerCase query) ws))%list).
Proof.
  revert n gs; induction ws as [|w ws IH]; intros n gs; simpl.
  - f_equal; [lia|by rewrite app_nil_r].
  - rewrite render_window_spec. destruct (has_match toLowerCase query w); simpl.
    + rewrite IH. f_equal; [lia|by rewrite <- app_assoc].
    + apply IH.
Qed.

Lemma filterWindows_spec
    (windows : list Window) (searchQuery : string) (collapsed : gmap Z bool) :
  let query := toLowerCase searchQuery in
  let kept := List.filter (has_match toLowerCase query) windows in
  filterWindows toLowerCase windows searchQuery collapsed =
  (map (group_of toLowerCase query collapsed) kept,
   sum_Z (map (fun g => Z.of_nat (length (wg_tabs g))) (map (group_of toLowerCase query collapsed) kept)),
   Z.of_nat (length kept)).
Proof.
  intros query kept. unfold filterWindows. fold query.
  rewrite render_fold. simpl. fold kept. f_equal.
  f_equal. f_equal. apply filter_ext. intros w. apply retained_has_match.
Qed.

(** C7: the total is the sum of the sizes of the groups drawn; the
    window count is the number of windows with a matching tab, which
    is the number of groups drawn; the groups are built, in order,
    from exactly the windows with a matching tab, each keeping its
    window record as it was given and showing its matching tabs, never
    none. *)
Theorem C7_filter_outputs_consistent
    (windows : list Window) (searchQuery : string) (collapsed : gmap Z bool) :
  let r := filterWindows toLowerCase windows searchQuery collapsed in
  let query := toLowerCase searchQuery in
  r.1.2 = sum_Z (map (fun g => Z.of_nat (length (wg_tabs g))) r.1.1) /\
  r.2 = Z.of_nat (length (List.filter (has_match toLowerCase query) windows)) /\
  r.2 = Z.of_nat (length r.1.1) /\
  map wg_window r.1.1 = List.filter (has_match toLowerCase query) windows /\
  Forall (fun g => wg_tabs g = List.filter (matches toLowerCase query) (tabs (wg_window g))
                   /\ wg_tabs g <> []) r.1.1.
Proof.
  intros r query. subst r. rewrite filterWindows_spec. fold query. simpl.
  split; [done|]. split; [done|].
  split; [by rewrite length_map|].
  split.
  - rewrite map_map. simpl. apply map_id.
  - apply Forall_forall. intros g Hg.
    apply list_elem_of_In, in_map_iff in Hg as (w & <- & Hw). simpl.
    split; [done|].
    apply filter_In in Hw as [_ Hw]. rewrite <- retained_has_match in Hw.
    apply Z.ltb_lt in Hw. intros E. unfold filteredTabs in *. rewrite E in Hw.
    simpl in Hw. lia.
Qed.

Lemma filter_all {X} (p : X -> bool) (l : list X) :
  (forall x, p x = true) -> List.filter p l = l.
Proof.
  intros H. induction l as [|x l IH]; simpl; [done|]. by rewrite H, IH.
Qed.

Lemma sum_kept_tab_counts (ws : list Window) :
  sum_Z (map tab_count (List.filter has_tabs ws)) = sum_Z (map tab_count ws).
Proof.
  induction ws as [|w ws IH]; simpl; [done|].
  destruct (has_tabs w) eqn:E; simpl; rewrite IH; [done|].
  unfold has_tabs in E. unfold tab_count at 2.
  destruct (tabs w); [simpl; lia|done].
Qed.

(** C1, as the code has it.  With the empty query (lower-casing the
    empty string gives the empty string) every tab matches: every window
    that has a tab is drawn, in order, with all its tabs, and the total
    is the number of tabs of the input.  With a query whose lower-cased
    form is not empty, a query of whitespace included, the windows
    drawn are, in order, those with a tab whose lower-cased title or
    address contains the lower-cased query, each with exactly these
    tabs. *)
Theorem C1_empty_query_matches_all
    (windows : list Window) (collapsed : gmap Z bool) (searchQuery : string) :
  toLowerCase "" = "" ->
  (let r := filterWindows toLowerCase windows "" collapsed in
   map wg_window r.1.1 = List.filter has_tabs windows /\
   Forall full_group r.1.1 /\
   r.1.2 = total_tabs windows) /\
  (toLowerCase searchQuery <> "" ->
   let query := toLowerCase searchQuery in
   let r := filterWindows toLowerCase windows searchQuery collapsed in
   map wg_window r.1.1 =
     List.filter (fun w => existsb (contains_query toLowerCase query) (tabs w)) windows /\
   Forall (fun g => wg_tabs g =
                    List.filter (contains_query toLowerCase query) (tabs (wg_window g)))
          r.1.1).
Proof.
  intros Hlow. split.
  - rewrite filterWindows_spec, Hlow. simpl.
    assert (forall w, filteredTabs toLowerCase "" w = tabs w) as Hall.
    { intros w. unfold filteredTabs. by apply filter_all. }
    assert (forall w, has_match toLowerCase "" w = has_tabs w) as Hkeep.
    { intros w. unfold has_match, has_tabs. by destruct (tabs w). }
    rewrite (filter_ext _ _ Hkeep).
    split; [|split].
    + rewrite map_map. simpl. apply map_id.
    + apply Forall_forall. intros g Hg.
      apply list_elem_of_In, in_map_iff in Hg as (w & <- & _).
      unfold full_group. simpl. apply Hall.
    + rewrite map_map. simpl. unfold total_tabs.
      rewrite <- sum_kept_tab_counts. f_equal. apply map_ext.
      intros w. unfold tab_count. by rewrite Hall.
  - intros Hq query r. subst r. rewrite filterWindows_spec. fold query. simpl.
    assert (forall t, matches toLowerCase query t = contains_query toLowerCase query t)
      as Hm.
    { intros t. unfold matches, contains_query. subst query.
      by destruct (toLowerCase searchQuery). }
    split.
    + rewrite map_map. simpl. rewrite map_id. apply filter_ext.
      intros w. unfold has_match. induction (tabs w) as [|t ts IH]; simpl; [done|].
      by rewrite Hm, IH.
    + apply Forall_forall. intros g Hg.
      apply list_elem_of_In, in_map_iff in Hg as (w & <- & _). simpl.
      unfold filteredTabs. apply filter_ext. exact Hm.
Qed.

End FilterClaims.

Lemma C1_witness :
  let w1 := sample_window 1 true [sample_tab 1 "GitHub" "https://github.com" None;
                                  sample_tab 2 "my docs" "https://example.org" None] in
  let w2 := sample_window 2 false [] in
  ascii_toLowerCase "" = "" /\
  ascii_toLowerCase " " <> "" /\
  (let r := filterWindows ascii_toLowerCase [w1; w2] "" ∅ in
   map wg_window r.1.1 = List.filter has_tabs [w1; w2] /\
   Forall full_group r.1.1 /\
   r.1.2 = total_tabs [w1; w2]) /\
  (let r := filterWindows ascii_toLowerCase [w1; w2] " " ∅ in
   map wg_window r.1.1 =
     List.filter (fun w => existsb (contains_query ascii_toLowerCase " ") (tabs w))
       [w1; w2] /\
   Forall (fun g => wg_tabs g =
                    List.filter (contains_query ascii_toLowerCase " ")
                      (tabs (wg_window g)))
          r.1.1).
Proof.
  intros w1 w2.
  assert (ascii_toLowerCase " " <> "") as Hq by discriminate.
  split; [reflexivity|]. split; [exact Hq|].
  destruct (C1_empty_query_matches_all ascii_toLowerCase [w1; w2] ∅ " " eq_refl)
    as [Hempty Hspace].
  split; [exact Hempty|exact (Hspace Hq)].
Defined.

(** A query of one space is whitespace only, yet a tab whose title and
    address contain no space does not match it; and a window without
    tabs is dropped even by the empty query. *)
Lemma C1_counterexample :
  let w := sample_window 1 true [sample_tab 1 "GitHub" "https://github.com" None] in
  whitespace_only " " = true /\
  filterWindows ascii_toLowerCase [w] " " ∅ = ([], 0, 0) /\
  total_tabs [w] = 1 /\
  map wg_window (filterWindows ascii_toLowerCase [sample_window 2 false []] "" ∅).1.1 = [] /\
  ~ whitespace_matches_everything ascii_toLowerCase.
Proof.
  intros w. repeat split; try reflexivity.
  intros H. specialize (H [w] " " ∅ eq_refl) as (_ & _ & H).
  vm_compute in H. discriminate.
Qed.

(** ** Access times *)

(** C3: recording [t1] and then [t2] for a tab leaves [t2], whatever the
    order of the two timestamps; so it is for the two callers, the
    activation listener and a successful [switchToTab]. *)
Theorem C3_last_write_wins
    (tabId t1 t2 : Z) (times : gmap Z Z) (s : Scheduler.State) :
  getAccess tabId (recordAccess tabId t2 (recordAccess tabId t1 times)) = Some t2 /\
  getAccess tabId
    (Scheduler.tabAccessTimes
       (Scheduler.onActivatedListener tabId t2
          (Scheduler.onActivatedListener tabId t1 s))) = Some t2 /\
  getAccess tabId
    (switchToTab (Resolved ()) (Resolved ()) tabId t2
       (switchToTab (Resolved ()) (Resolved ()) tabId t1 times)) = Some t2.
Proof.
  unfold getAccess, recordAccess, switchToTab. simpl.
  unfold recordAccess. by rewrite !lookup_insert_eq.
Qed.

(** ** Provider failure *)

(** C4: when either provider call rejects, [getAllTabs] returns the empty
    array instead of failing, which is also what it returns for a browser
    without windows; [renderTabs] then draws the same page in both
    cases. *)
Theorem C4_provider_failure_yields_empty
    (toLowerCase : string -> string) (localeCompare : string -> string -> Z)
    (hostname : string -> option string)
    (error : string)
    (windows : outcome (list ChromeWindow)) (groups : outcome (list ChromeGroup))
    (tabGroups : list ChromeGroup)
    (times : gmap Z Z) (now : Z)
    (view : View) (sortBy searchQuery : string) (collapsed : gmap Z bool) :
  getAllTabs hostname (Rejected error) groups times now = [] /\
  getAllTabs hostname windows (Rejected error) times now = [] /\
  getAllTabs hostname (Rejected error) groups times now =
    getAllTabs hostname (Resolved []) (Resolved tabGroups) times now /\
  renderTabs toLowerCase localeCompare view
    (getAllTabs hostname (Rejected error) groups times now)
    sortBy searchQuery collapsed =
  renderTabs toLowerCase localeCompare view
    (getAllTabs hostname (Resolved []) (Resolved tabGroups) times now)
    sortBy searchQuery collapsed.
Proof.
  repeat split; try reflexivity. by destruct windows.
Qed.

(** ** Collapsed windows *)

Lemma completeWrites_from (k : list (gmap Z bool)) (s : CollapseStore) (m : gmap Z bool)
    (before : list (gmap Z bool)) :
  writes s = (before ++ [m])%list ->
  length k = length (writes s) ->
  foldl (fun st _ => completeWrite st) s k =
  {| collapsedWindows := collapsedWindows s; stored := Some m; writes := [] |}.
Proof.
  revert s before; induction k as [|x k IH]; intros s before Hw Hlen.
  - rewrite Hw, length_app in Hlen. simpl in Hlen. lia.
  - simpl. destruct before as [|b before]; simpl in Hw.
    + unfold completeWrite at 2. rewrite Hw.
      rewrite Hw in Hlen. simpl in Hlen. destruct k; [done|simpl in Hlen; lia].
    + rewrite (IH _ before); unfold completeWrite; rewrite Hw; simpl; try done.
      rewrite Hw in Hlen. simpl in Hlen. lia.
Qed.

Lemma collapse_step_never_recorded (w : Z) (s : CollapseStore) (op : CollapseOp) :
  op <> Toggle w -> never_recorded w s -> never_recorded w (collapse_step s op).
Proof.
  intros Hop (Hmem & Hst & Hwr). destruct op as [w'| |]; simpl.
  - assert (w' <> w) by congruence.
    unfold never_recorded, saveCollapsedState. simpl.
    split; [by rewrite lookup_insert_ne|]. split; [done|].
    apply Forall_app. split; [done|].
    constructor; [by rewrite lookup_insert_ne|constructor].
  - unfold never_recorded, loadCollapsedState. simpl.
    split; [|done]. destruct (stored s) as [m|] eqn:E; simpl; [by apply Hst|done].
  - unfold completeWrite. destruct (writes s) as [|m rest] eqn:E.
    { split; [done|]. split; [done|]. rewrite E. constructor. }
    apply Forall_cons in Hwr as [Hm Hrest].
    unfold never_recorded. simpl.
    split; [done|]. split; [|done]. by intros ? [= <-].
Qed.

Lemma collapse_run_never_recorded (w : Z) (ops : list CollapseOp) (s : CollapseStore) :
  Toggle w ∉ ops -> never_recorded w s ->
  never_recorded w (foldl collapse_step s ops).
Proof.
  revert s; induction ops as [|op ops IH]; intros s Hops Hs; simpl; [done|].
  apply not_elem_of_cons in Hops as [Hop Hops].
  apply IH; [done|]. by apply collapse_step_never_recorded.
Qed.

(** C9: after a toggle of [w], once the storage has carried out the
    outstanding writes, a reload from the storage gives a map whose
    entry for [w] is the negation of what [w] read before the toggle,
    in the same popup and in a popup opened anew, whatever its memory
    held before the load; and a window that was never toggled, from the
    first start on, reads as not collapsed, before and after such a
    reload. *)
Theorem C9_collapse_roundtrip
    (s : CollapseStore) (w : Z) (ops : list CollapseOp) :
  Toggle w ∉ ops ->
  (let before := isCollapsed (collapsedWindows s) w in
   let reloaded :=
     loadCollapsedState (completeWrites (toggleWindowCollapse w s).1) in
   collapsedWindows reloaded !! w = Some (negb before) /\
   isCollapsed (collapsedWindows reloaded) w = negb before /\
   (toggleWindowCollapse w s).2 = negb before) /\
  isCollapsed (collapsedWindows (foldl collapse_step initialCollapseStore ops)) w
    = false /\
  (forall memory : gmap Z bool,
     let before := isCollapsed (collapsedWindows s) w in
     let reloaded :=
       loadCollapsedState
         (reopen memory (completeWrites (toggleWindowCollapse w s).1)) in
     stored (completeWrites (toggleWindowCollapse w s).1) =
       Some (<[w := negb before]> (collapsedWindows s)) /\
     collapsedWindows reloaded !! w = Some (negb before) /\
     isCollapsed (collapsedWindows reloaded) w = negb before) /\
  (forall memory : gmap Z bool,
     isCollapsed
       (collapsedWindows
          (loadCollapsedState
             (reopen memory (foldl collapse_step initialCollapseStore ops)))) w
     = false).
Proof.
  intros Hops.
  assert (forall (m : gmap Z bool) b, isCollapsed (<[w := b]> m) w = b) as E
    by (intros m b; unfold isCollapsed; by rewrite lookup_insert_eq).
  assert (completeWrites (toggleWindowCollapse w s).1 =
          {| collapsedWindows :=
               <[w := negb (isCollapsed (collapsedWindows s) w)]> (collapsedWindows s);
             stored :=
               Some (<[w := negb (isCollapsed (collapsedWindows s) w)]> (collapsedWindows s));
             writes := [] |}) as Hdone.
  { unfold completeWrites.
    by rewrite (completeWrites_from _ _
                  (<[w := negb (isCollapsed (collapsedWindows s) w)]> (collapsedWindows s))
                  (writes s)). }
  destruct (collapse_run_never_recorded w ops initialCollapseStore Hops)
    as (Hmem & Hst & _).
  { split; [done|]. split; [done|constructor]. }
  split; [|split; [|split]].
  - rewrite Hdone. simpl. by rewrite lookup_insert_eq, !E.
  - unfold isCollapsed. by rewrite Hmem.
  - intros memory. rewrite Hdone. simpl. by rewrite lookup_insert_eq, E.
  - intros memory. unfold isCollapsed, loadCollapsedState, reopen. simpl.
    destruct (stored _) as [m|] eqn:Es; simpl; [by rewrite (Hst m)|done].
Qed.

Lemma C9_witness :
  (Toggle 7 ∉ [Toggle 3; WriteDone; Load; Toggle 3]) /\
  (let s := foldl collapse_step initialCollapseStore [Toggle 7; WriteDone] in
   let reloaded :=
     loadCollapsedState (reopen ∅ (completeWrites (toggleWindowCollapse 7 s).1)) in
   collapsedWindows reloaded !! 7 = Some false) /\
  isCollapsed
    (collapsedWindows
       (foldl collapse_step initialCollapseStore [Toggle 3; WriteDone; Load; Toggle 3]))
    7 = false.
Proof.
  assert (Toggle 7 ∉ [Toggle 3; WriteDone; Load; Toggle 3]) as H.
  { intros H. repeat (apply elem_of_cons in H as [H|H]; [discriminate|]).
    by apply elem_of_nil in H. }
  split; [exact H|].
  pose proof (C9_collapse_roundtrip
                (foldl collapse_step initialCollapseStore [Toggle 7; WriteDone])
                7 _ H) as (_ & N & R & _).
  split; [exact (proj1 (proj2 (R ∅)))|exact N].
Defined.

(** ** Live updates *)

Lemma advance_quiet (s : State) (now : Z) : quiet s now -> advance now s = s.
Proof.
  intros [E|(d & (t & E & Hd & _) & Hlt)]; destruct s; simpl in *; subst;
    unfold advance; simpl; [done|].
  replace (deadline t <=? now) with false by (symmetry; apply Z.leb_gt; lia).
  replace (now <? deadline t) with true by (symmetry; apply Z.ltb_lt; lia).
  done.
Qed.

Lemma clearTimeout_armed (s : State) :
  (timers s = [] \/ exists d, armed s d) ->
  clearTimeout (debounceTimeout s) (timers s) = [].
Proof.
  intros [E|(d & t & E & _ & Hh & _)]; rewrite E.
  - unfold clearTimeout. by destruct (debounceTimeout s).
  - rewrite Hh. simpl. by rewrite Z.eqb_refl.
Qed.

Lemma dispatch_arms (e : Event) (now : Z) (s : State) :
  (timers s = [] \/ exists d, armed s d) ->
  armed (dispatch e now s) (now + 300) /\
  renders (dispatch e now s) = renders s.
Proof.
  intros H. pose proof (clearTimeout_armed s H) as Hc.
  destruct e; simpl;
    unfold onUpdatedListener, onCreatedListener, onRemovedListener,
           onActivatedListener, onSearchInput, onTabSearch, debouncedRender, arm;
    simpl; rewrite Hc; (split; [|done]);
    eexists; simpl; (split; [reflexivity|]); simpl; done.
Qed.

Lemma step_arms (s : State) (te : Z * Event) :
  quiet s te.1 ->
  armed (step s te) (te.1 + 300) /\ renders (step s te) = renders s.
Proof.
  intros H. unfold step. rewrite advance_quiet by done.
  apply dispatch_arms. destruct H as [?|(d & ? & _)]; eauto.
Qed.

Lemma burst_arms (events : list (Z * Event)) (s : State) (last : Z * Event) :
  quiet s (hd last events).1 ->
  burst (events ++ [last]) ->
  armed (foldl step s (events ++ [last])) (last.1 + 300) /\
  renders (foldl step s (events ++ [last])) = renders s.
Proof.
  revert s; induction events as [|te events IH]; intros s Hq Hb; simpl in *.
  - by apply step_arms.
  - destruct (step_arms s te Hq) as [Ha Hr].
    destruct Hb as [Hgap Hb].
    destruct (IH (step s te)) as [Ha' Hr']; [|done|].
    + right. exists (te.1 + 300). split; [done|].
      destruct events as [|te' events]; simpl in *; lia.
    + split; [done|]. by rewrite Hr'.
Qed.

Lemma advance_fires (s : State) (d now : Z) :
  armed s d -> d <= now ->
  renders (advance now s) = (renders s ++ [(d, searchInput_value s)])%list /\
  timers (advance now s) = [].
Proof.
  intros (t & E & Hd & _ & Hq) Hle. unfold advance. rewrite E. simpl.
  replace (deadline t <=? now) with true by (symmetry; apply Z.leb_le; lia).
  replace (now <? deadline t) with false by (symmetry; apply Z.ltb_ge; lia).
  simpl. unfold pending_query in Hq. by rewrite Hq, Hd.
Qed.

(** C8: a burst of one or more events, each less than [300] after the
    one before, starting with no timer pending, makes [renderTabs] run
    exactly once, [300] after the last event and with the search text as
    it then is; while the burst lasts nothing runs, and after each
    arming only the newest timer is pending, the older one having been
    cleared. *)
Theorem C8_debounce_coalesces
    (s : State) (events : list (Z * Event)) (last : Z * Event) (finish : Z) :
  timers s = [] ->
  burst (events ++ [last]) ->
  last.1 + 300 <= finish ->
  let mid := foldl step s (events ++ [last]) in
  let final := run s (events ++ [last]) finish in
  renders mid = renders s /\
  (exists t, timers mid = [t] /\ deadline t = last.1 + 300) /\
  renders final = (renders s ++ [(last.1 + 300, searchInput_value mid)])%list /\
  timers final = [].
Proof.
  intros Hs Hb Hfin mid final.
  destruct (burst_arms events s last) as [Ha Hr]; [by left|done|].
  fold mid in Ha, Hr.
  destruct (advance_fires mid (last.1 + 300) finish Ha Hfin) as [Hf Ht].
  split; [done|]. split.
  - destruct Ha as (t & ? & ? & _). eauto.
  - subst final. unfold run. fold mid. by rewrite Hf, Ht, Hr.
Qed.

Lemma C8_witness :
  let events := [(0, TabCreated); (100, SearchInput "git")] in
  let last := (350, TabActivated 5) in
  timers (initial "") = [] /\
  burst (events ++ [last]) /\
  350 + 300 <= 1000 /\
  renders (run (initial "") (events ++ [last]) 1000) = [(650, "git")].
Proof.
  intros events last.
  assert (burst (events ++ [last])) as Hb by (simpl; lia).
  assert (350 + 300 <= 1000) as Hf by lia.
  split; [reflexivity|]. split; [exact Hb|]. split; [exact Hf|].
  exact (proj1 (proj2 (proj2
    (C8_debounce_coalesces (initial "") events last 1000 eq_refl Hb Hf)))).
Defined.

(** ** Concrete runs *)

Example preference_parsing :
  sortType_of "tab-count-asc" = "tab-count" /\
  direction_of "tab-count-asc" = "asc" /\
  sortType_of "last-accessed-desc" = "last-accessed" /\
  sortType_of "focused" = "" /\
  direction_of "focused" = "focused".
Proof. repeat split. Qed.

Example tab_count_sorting :
  let t := sample_tab 0 "x" "" None in
  let ws := [sample_window 1 false [t; t; t];
             sample_window 2 false [t];
             sample_window 3 false [t; t];
             sample_window 4 true [t; t]] in
  map windowId (sortWindows ascii_toLowerCase code_localeCompare ws "tab-count-asc")
    = [2; 4; 3; 1] /\
  map windowId (sortWindows ascii_toLowerCase code_localeCompare ws "tab-count-desc")
    = [1; 4; 3; 2] /\
  map windowId (sortWindows ascii_toLowerCase code_localeCompare ws "focused-asc")
    = [4; 2; 3; 1] /\
  map windowId (sortWindows ascii_toLowerCase code_localeCompare ws "focused-desc")
    = [2; 3; 1; 4] /\
  map windowId (sortWindows ascii_toLowerCase code_localeCompare ws "newest-first")
    = [1; 2; 3; 4].
Proof. repeat split. Qed.

Example alphabetical_sorting :
  let ws := [sample_window 1 false [sample_tab 0 "banana" "" None];
             sample_window 2 false [sample_tab 0 "Apple" "" None];
             sample_window 3 false [sample_tab 0 "cherry" "" None]] in
  map windowId (sortWindows ascii_toLowerCase code_localeCompare ws "alphabetical-asc")
    = [2; 1; 3] /\
  map windowId (sortWindows ascii_toLowerCase code_localeCompare ws "alphabetical-desc")
    = [3; 1; 2].
Proof. repeat split. Qed.

(** A window without tabs has key [-Infinity]: last under [desc], first
    under [asc]. *)
Example last_accessed_sorting :
  let ws := [sample_window 1 false [sample_tab 0 "a" "" (Some 5); sample_tab 1 "b" "" None];
             sample_window 2 false [];
             sample_window 3 false [sample_tab 2 "c" "" (Some 9)];
             sample_window 4 false [sample_tab 3 "d" "" None]] in
  map windowId (sortWindows ascii_toLowerCase code_localeCompare ws "last-accessed-desc")
    = [3; 1; 4; 2] /\
  map windowId (sortWindows ascii_toLowerCase code_localeCompare ws "last-accessed-asc")
    = [2; 4; 1; 3].
Proof. repeat split. Qed.

Example search_git :
  let github := sample_tab 1 "GitHub" "https://example.com" None in
  let docs := sample_tab 2 "docs" "https://example.org" None in
  let w1 := sample_window 1 true [github; docs] in
  let w2 := sample_window 2 false [docs] in
  filterWindows ascii_toLowerCase [w1; w2] "Git" ∅ =
    ([ {| wg_window := w1; wg_tabs := [github]; wg_collapsed := false |} ], 1, 1) /\
  (filterWindows ascii_toLowerCase [w1; w2] "" ∅).1.2 = 3.
Proof. repeat split. Qed.

(** With no windows [renderTabs] shows its message and leaves the two
    counters as they were. *)
Example renderTabs_no_windows
    (view : View) (sortBy searchQuery : string) (collapsed : gmap Z bool) :
  renderTabs ascii_toLowerCase code_localeCompare view [] sortBy searchQuery collapsed =
  {| container := [MessageDiv "No tabs found"];
     window_count := window_count view;
     tab_count_shown := tab_count_shown view |}.
Proof. reflexivity. Qed.


(** * Further properties of the popup *)

(** ** Preference strings *)

(** X1: a preference written as type, dash, direction splits back into
    that type and that direction whenever the direction has no dash; the
    type may contain dashes. *)
Theorem preference_roundtrip (type direction : string) :
  has_char "-" direction = false ->
  sortType_of (type +:+ "-" +:+ direction) = type /\
  direction_of (type +:+ "-" +:+ direction) = direction.
Proof.
  intros H. change (type +:+ "-" +:+ direction) with (type +:+ String "-" direction).
  split; [by apply sortType_of_split|by apply direction_of_split].
Qed.

Lemma preference_roundtrip_witness :
  has_char "-" "asc" = false /\
  sortType_of ("last-accessed" +:+ "-" +:+ "asc") = "last-accessed" /\
  direction_of ("last-accessed" +:+ "-" +:+ "asc") = "asc".
Proof.
  split; [reflexivity|]. apply (preference_roundtrip "last-accessed" "asc"). reflexivity.
Defined.

Lemma sortType_of_no_dash (sortBy : string) :
  has_char "-" sortBy = false -> sortType_of sortBy = "".
Proof.
  intros H. unfold sortType_of, JS.lastIndexOf, JS.substring.
  rewrite lastIndexOf_from_absent by done.
  pose proof (strlen_nonneg sortBy).
  replace (Z.min 0 (JS.strlen sortBy)) with 0 by lia.
  replace (Z.min (-1) (JS.strlen sortBy)) with (-1) by lia.
  reflexivity.
Qed.

(** X2: a preference without any dash has the empty type, so the windows
    come back in their input order. *)
Theorem preference_without_dash_keeps_order
    (toLowerCase : string -> string) (localeCompare : string -> string -> Z)
    (windows : list Window) (sortBy : string) :
  has_char "-" sortBy = false ->
  sortWindows toLowerCase localeCompare windows sortBy = windows.
Proof.
  intros H. unfold sortWindows. by rewrite sortType_of_no_dash.
Qed.

Lemma preference_without_dash_keeps_order_witness :
  let ws := [sample_window 1 false [sample_tab 1 "b" "" None; sample_tab 2 "c" "" None];
             sample_window 2 true [sample_tab 3 "a" "" None]] in
  has_char "-" "focused" = false /\
  sortWindows ascii_toLowerCase code_localeCompare ws "focused" = ws.
Proof.
  intros ws. split; [reflexivity|].
  apply preference_without_dash_keeps_order. reflexivity.
Defined.

(** ** More on the sort *)

#[local] Instance focused_asc_order_trans : Transitive focused_asc_order.
Proof.
  unfold focused_asc_order. intros a b c.
  destruct (focused a), (focused b), (focused c); intros [[??]|[??]] [[??]|[??]];
    try discriminate; (by left) || (right; split; [done|lia]).
Qed.

#[local] Instance focused_desc_order_trans : Transitive focused_desc_order.
Proof.
  unfold focused_desc_order. intros a b c.
  destruct (focused a), (focused b), (focused c); intros [[??]|[??]] [[??]|[??]];
    try discriminate; (by left) || (right; split; [done|lia]).
Qed.

Lemma focused_asc_sound (x y : Window) :
  (JS.is_negative (JS.SortCompare (compare_focused "asc") x y) = true ->
   focused_asc_order x y) /\
  (JS.is_negative (JS.SortCompare (compare_focused "asc") x y) = false ->
   focused_asc_order y x).
Proof.
  unfold JS.SortCompare, compare_focused, focused_asc_order. simpl String.eqb.
  destruct (focused x), (focused y); simpl; split; intros H;
    try discriminate; try (by left);
    right; (split; [done|]);
    [apply Z.ltb_lt in H|apply Z.ltb_ge in H|apply Z.ltb_lt in H|apply Z.ltb_ge in H];
    lia.
Qed.

Lemma focused_desc_sound (direction : string) (x y : Window) :
  String.eqb direction "asc" = false ->
  (JS.is_negative (JS.SortCompare (compare_focused direction) x y) = true ->
   focused_desc_order x y) /\
  (JS.is_negative (JS.SortCompare (compare_focused direction) x y) = false ->
   focused_desc_order y x).
Proof.
  intros Hd.
  unfold JS.SortCompare, compare_focused, focused_desc_order. rewrite Hd.
  destruct (focused x), (focused y); simpl; split; intros H;
    try discriminate; try (by left);
    right; (split; [done|]);
    [apply Z.ltb_lt in H|apply Z.ltb_ge in H|apply Z.ltb_lt in H|apply Z.ltb_ge in H];
    lia.
Qed.


(** X4: for the type [focused] too, a direction without a dash that is
    not exactly [asc] sorts as [desc] does: the focused window last. *)
Theorem focused_direction_other_than_asc
    (toLowerCase : string -> string) (localeCompare : string -> string -> Z)
    (direction : string) (windows : list Window) :
  has_char "-" direction = false ->
  direction <> "asc" ->
  sortWindows toLowerCase localeCompare windows ("focused" +:+ "-" +:+ direction) =
  sortWindows toLowerCase localeCompare windows "focused-desc".
Proof.
  intros Hdash Hd. apply String.eqb_neq in Hd.
  unfold sortWindows.
  change ("focused" +:+ "-" +:+ direction) with ("focused" +:+ String "-" direction).
  change "focused-desc" with ("focused" +:+ String "-" "desc").
  rewrite !sortType_of_split, !direction_of_split by done.
  unfold comparator; simpl. unfold compare_focused. by rewrite Hd.
Qed.

Lemma focused_direction_other_than_asc_witness :
  let ws := [sample_window 1 true [sample_tab 1 "b" "" None];
             sample_window 2 false [sample_tab 2 "a" "" None]] in
  has_char "-" "up" = false /\
  "up" <> "asc" /\
  sortWindows ascii_toLowerCase code_localeCompare ws ("focused" +:+ "-" +:+ "up") =
  sortWindows ascii_toLowerCase code_localeCompare ws "focused-desc".
Proof.
  intros ws. split; [reflexivity|]. split; [discriminate|].
  apply focused_direction_other_than_asc; [reflexivity|discriminate].
Defined.

Lemma code_localeCompare_consistent : consistent_comparator code_localeCompare.
Proof.
  unfold consistent_comparator, code_localeCompare. split.
  - intros a b. rewrite (String.compare_antisym a b).
    destruct (String.compare b a); simpl; lia.
  - intros a b c.
    destruct (String.compare a b) eqn:Hab; [| |lia];
      destruct (String.compare b c) eqn:Hbc; try lia; intros _ _.
    + apply String_as_OT.cmp_eq in Hab, Hbc. subst.
      rewrite (proj2 (String_as_OT.cmp_eq c c) eq_refl : String.compare c c = Eq). lia.
    + apply String_as_OT.cmp_eq in Hab. subst. rewrite Hbc. lia.
    + apply String_as_OT.cmp_eq in Hbc. subst. rewrite Hab. lia.
    + apply String_as_OT.cmp_lt in Hab, Hbc.
      pose proof (String_as_OT.lt_trans _ _ _ Hab Hbc) as Hac.
      apply String_as_OT.cmp_lt in Hac.
      rewrite (Hac : String.compare a c = Lt). lia.
Qed.

Section Alphabetical.

Variable toLowerCase : string -> string.
Variable localeCompare : string -> string -> Z.
Hypothesis consistent : consistent_comparator localeCompare.

Lemma alphabetical_asc_order_trans :
  Transitive (alphabetical_asc_order toLowerCase localeCompare).
Proof. intros a b c. unfold alphabetical_asc_order. apply consistent. Qed.

Lemma alphabetical_desc_order_trans :
  Transitive (alphabetical_desc_order toLowerCase localeCompare).
Proof.
  intros a b c H1 H2. unfold alphabetical_desc_order in *.
  by apply (proj2 consistent _ (first_title toLowerCase b)).
Qed.

Lemma localeCompare_flip (a b : string) :
  0 <= localeCompare a b -> localeCompare b a <= 0.
Proof.
  intros H. destruct consistent as [Hsym _].
  destruct (Z.lt_ge_cases 0 (localeCompare b a)) as [Hpos|]; [|done].
  apply Hsym in Hpos. lia.
Qed.

Lemma alphabetical_asc_sound (x y : Window) :
  (JS.is_negative
     (JS.SortCompare (compare_alphabetical toLowerCase localeCompare "asc") x y) = true ->
   alphabetical_asc_order toLowerCase localeCompare x y) /\
  (JS.is_negative
     (JS.SortCompare (compare_alphabetical toLowerCase localeCompare "asc") x y) = false ->
   alphabetical_asc_order toLowerCase localeCompare y x).
Proof.
  unfold JS.SortCompare, compare_alphabetical, alphabetical_asc_order. simpl.
  split; intros H; [apply Z.ltb_lt in H; lia|].
  apply Z.ltb_ge in H. by apply localeCompare_flip.
Qed.

Lemma alphabetical_desc_sound (x y : Window) :
  (JS.is_negative
     (JS.SortCompare (compare_alphabetical toLowerCase localeCompare "desc") x y) = true ->
   alphabetical_desc_order toLowerCase localeCompare x y) /\
  (JS.is_negative
     (JS.SortCompare (compare_alphabetical toLowerCase localeCompare "desc") x y) = false ->
   alphabetical_desc_order toLowerCase localeCompare y x).
Proof.
  unfold JS.SortCompare, compare_alphabetical, alphabetical_desc_order. simpl.
  split; intros H; [apply Z.ltb_lt in H|apply Z.ltb_ge in H].
  - apply localeCompare_flip. lia.
  - lia.
Qed.

Lemma first_title_window_title (w : Window) :
  first_title toLowerCase w = toLowerCase (window_title w).
Proof.
  unfold first_title, window_title, JS.or_else.
  destruct (tabs w) as [|t ts]; [done|]. by destruct (title t).
Qed.


End Alphabetical.


(** X6: the [tab-count] comparator answers "first" for both orders of a
    pair exactly when the two windows have as many tabs and are both
    focused; for every other pair its two answers agree with each
    other. *)
Theorem tab_count_comparator_conflict (direction : string) (a b : Window) :
  (JS.is_negative (compare_tab_count direction a b) = true /\
   JS.is_negative (compare_tab_count direction b a) = true) <->
  (tab_count a = tab_count b /\ focused a = true /\ focused b = true).
Proof.
  unfold compare_tab_count.
  destruct (Z.eqb_spec (tab_count a - tab_count b) 0) as [E|E],
           (Z.eqb_spec (tab_count b - tab_count a) 0) as [E'|E']; try lia; simpl.
  - destruct (focused a), (focused b); simpl; split; intros H;
      try (destruct H as [H1 H2]; discriminate);
      try (destruct H as (_ & H1 & H2); discriminate).
    + split; [lia|done].
    + done.
  - split; [|intros [? _]; lia].
    destruct (String.eqb direction "asc"); simpl; intros [H1 H2];
      apply Z.ltb_lt in H1, H2; lia.
Qed.


(** ** The aggregator *)

Section Aggregator.

Variable hostname : string -> option string.

Lemma every_tab_getAllTabs
    (P : Window -> Tab -> Prop)
    (windows_getAll : outcome (list ChromeWindow))
    (tabGroups_query : outcome (list ChromeGroup))
    (times : gmap Z Z) (now : Z) :
  (forall tabGroups cw ct ts,
     tabGroups_query = Resolved tabGroups ->
     P {| windowId := cw_id cw; focused := cw_focused cw; tabs := ts |}
       (enrichTab hostname (groupMap tabGroups) times now cw ct)) ->
  every_tab P (getAllTabs hostname windows_getAll tabGroups_query times now).
Proof.
  intros H. unfold every_tab, getAllTabs.
  destruct windows_getAll as [windows|]; [|constructor].
  destruct tabGroups_query as [tabGroups|]; [|constructor].
  apply Forall_forall. intros w Hw.
  apply list_elem_of_In, in_map_iff in Hw as (cw & <- & _). simpl.
  apply Forall_forall. intros t Ht.
  apply list_elem_of_In, in_map_iff in Ht as (ct & <- & _).
  by apply H.
Qed.

(** X7: the aggregator keeps the provider's windows and tabs in their
    order, with their identifiers and flags, and every tab names the
    window that holds it. *)
Theorem getAllTabs_keeps_structure
    (windows : list ChromeWindow) (tabGroups : list ChromeGroup)
    (times : gmap Z Z) (now : Z) :
  let result := getAllTabs hostname (Resolved windows) (Resolved tabGroups) times now in
  map (fun w => (windowId w, focused w,
                 map (fun t => (id t, active t, pinned t, groupId t)) (tabs w)))
      result =
  map (fun cw => (cw_id cw, cw_focused cw,
                  map (fun ct => (ct_id ct, ct_active ct, ct_pinned ct, ct_groupId ct))
                      (cw_tabs cw)))
      windows /\
  every_tab (fun w t => tab_windowId t = windowId w) result.
Proof.
  intros result. split.
  - subst result. unfold getAllTabs. rewrite map_map. apply map_ext.
    intros cw. simpl. by rewrite map_map.
  - by apply every_tab_getAllTabs.
Qed.

Lemma or_else_truthy (s d : string) : JS.truthy d = true -> JS.truthy (JS.or_else s d) = true.
Proof. intros H. unfold JS.or_else. by destruct (JS.truthy s) eqn:E. Qed.

Lemma prefix_http_truthy (s : string) : String.prefix "http" s = true -> JS.truthy s = true.
Proof. by destruct s. Qed.

Lemma getFaviconUrl_scheme (tab : ChromeTab) :
  String.prefix "http" (getFaviconUrl hostname tab) = true \/
  getFaviconUrl hostname tab = DEFAULT_FAVICON.
Proof.
  unfold getFaviconUrl.
  destruct (String.prefix "http" (ct_favIconUrl tab)) eqn:Hp.
  - rewrite (prefix_http_truthy _ Hp). simpl. by left.
  - rewrite andb_false_r. destruct (hostname (ct_url tab)); [by left|by right].
Qed.

(** X8: the icon address is always an [http] address (the tab's own one,
    or the favicon service's) or the placeholder: an icon reported as an
    [http] address is passed on as it is; any other reported icon is
    replaced, by the favicon service's address for the host of the tab's
    address when that address parses, and by the placeholder when it
    does not. *)
Theorem getFaviconUrl_http_or_placeholder (tab : ChromeTab) :
  (String.prefix "http" (getFaviconUrl hostname tab) = true \/
   getFaviconUrl hostname tab = DEFAULT_FAVICON) /\
  getFaviconUrl hostname tab =
    if String.prefix "http" (ct_favIconUrl tab)
    then ct_favIconUrl tab
    else match hostname (ct_url tab) with
         | Some h => "https://www.google.com/s2/favicons?domain=" +:+ h +:+ "&sz=16"
         | None => DEFAULT_FAVICON
         end.
Proof.
  split; [apply getFaviconUrl_scheme|].
  unfold getFaviconUrl.
  destruct (String.prefix "http" (ct_favIconUrl tab)) eqn:Hp.
  - by rewrite (prefix_http_truthy _ Hp).
  - by rewrite andb_false_r.
Qed.

(** X9: every tab the aggregator returns has a title, an icon address
    and, when it has a group, a group title, none of them empty. *)
Theorem getAllTabs_fills_defaults
    (windows_getAll : outcome (list ChromeWindow))
    (tabGroups_query : outcome (list ChromeGroup))
    (times : gmap Z Z) (now : Z) :
  every_tab
    (fun _ t =>
       title t <> "" /\ favIconUrl t <> "" /\
       (forall g, group t = Some g -> group_title g <> ""))
    (getAllTabs hostname windows_getAll tabGroups_query times now).
Proof.
  apply every_tab_getAllTabs. intros tabGroups cw ct _ _. simpl.
  assert (forall s, JS.truthy s = true -> s <> "") as Hne by (by intros [|]).
  split; [by apply Hne, or_else_truthy|]. split.
  - apply Hne. destruct (getFaviconUrl_scheme ct) as [H| ->]; [|done].
    by apply prefix_http_truthy.
  - intros g. destruct (negb _); [|done].
    destruct (groupMap tabGroups !! ct_groupId ct); [|done].
    intros [= <-]. simpl. by apply Hne, or_else_truthy.
Qed.

(** X10: when the clock does not read [0], every active tab comes back
    with a known access time, whatever the tracker holds. *)
Theorem getAllTabs_active_tab_has_time
    (windows_getAll : outcome (list ChromeWindow))
    (tabGroups_query : outcome (list ChromeGroup))
    (times : gmap Z Z) (now : Z) :
  now <> 0 ->
  every_tab (fun _ t => active t = true -> known_time (lastAccessed t))
    (getAllTabs hostname windows_getAll tabGroups_query times now).
Proof.
  intros Hnow. apply every_tab_getAllTabs. intros tabGroups cw ct _ _. simpl.
  intros Hact. unfold resolveLastAccessed, known_time. rewrite Hact.
  destruct (times !! ct_id ct) as [t|]; [|eauto].
  destruct (Z.eqb_spec t 0); eauto.
Qed.

(** X11: an access recorded for a tab at a time other than [0] is what
    the next aggregation reports for that tab, active or not; the other
    tabs get what they got without the record. *)
Theorem getAllTabs_reports_recorded_access
    (windows : list ChromeWindow) (tabGroups : list ChromeGroup)
    (times : gmap Z Z) (now tabId timestamp : Z) :
  timestamp <> 0 ->
  every_tab (fun _ t => id t = tabId -> lastAccessed t = Some timestamp)
    (getAllTabs hostname (Resolved windows) (Resolved tabGroups)
       (recordAccess tabId timestamp times) now) /\
  map (fun w => List.filter (fun t => negb (id t =? tabId)) (tabs w))
    (getAllTabs hostname (Resolved windows) (Resolved tabGroups)
       (recordAccess tabId timestamp times) now) =
  map (fun w => List.filter (fun t => negb (id t =? tabId)) (tabs w))
    (getAllTabs hostname (Resolved windows) (Resolved tabGroups) times now).
Proof.
  intros Hts. split.
  - apply every_tab_getAllTabs. intros ? cw ct _ _. simpl. intros <-.
    unfold resolveLastAccessed, recordAccess. rewrite lookup_insert_eq.
    by destruct (Z.eqb_spec timestamp 0).
  - unfold getAllTabs. rewrite !map_map. apply map_ext. intros cw. simpl.
    induction (cw_tabs cw) as [|ct cts IH]; simpl; [done|].
    destruct (Z.eqb_spec (ct_id ct) tabId) as [E|E]; simpl; [done|].
    rewrite IH. f_equal. unfold enrichTab, resolveLastAccessed, recordAccess.
    by rewrite lookup_insert_ne.
Qed.

Lemma groupMap_from (tabGroups : list ChromeGroup) (m : gmap Z ChromeGroup) (k : Z) :
  foldl (fun m g => <[cg_id g := g]> m) m tabGroups !! k =
  foldl (fun found g => if cg_id g =? k then Some g else found) (m !! k) tabGroups.
Proof.
  revert m; induction tabGroups as [|g gs IH]; intros m; simpl; [done|].
  rewrite IH. f_equal. destruct (Z.eqb_spec (cg_id g) k) as [<-|E].
  - by rewrite lookup_insert_eq.
  - by rewrite lookup_insert_ne.
Qed.

Lemma groupMap_lookup (tabGroups : list ChromeGroup) (k : Z) :
  groupMap tabGroups !! k = last_group_with k tabGroups.
Proof. unfold groupMap. by rewrite groupMap_from. Qed.

(** X12: a tab shows the group that was reported last under the tab's
    group id, with [Unnamed Group] for an empty title; a tab whose group
    id is the "no group" id shows none, even if a group is reported
    under that id, and so does a tab whose group id was not reported. *)
Theorem getAllTabs_resolves_groups
    (windows_getAll : outcome (list ChromeWindow))
    (tabGroups : list ChromeGroup) (times : gmap Z Z) (now : Z) :
  every_tab
    (fun _ t =>
       group t =
       if groupId t =? TAB_GROUP_ID_NONE then None
       else match last_group_with (groupId t) tabGroups with
            | Some g => Some {| group_title := JS.or_else (cg_title g) "Unnamed Group";
                                group_color := cg_color g |}
            | None => None
            end)
    (getAllTabs hostname windows_getAll (Resolved tabGroups) times now).
Proof.
  apply every_tab_getAllTabs. intros ? cw ct _ [= <-]. simpl.
  rewrite <- groupMap_lookup. by destruct (ct_groupId ct =? TAB_GROUP_ID_NONE).
Qed.

End Aggregator.

Lemma getAllTabs_active_tab_has_time_witness :
  let windows := [sample_chrome_window 1 true
                    [sample_chrome_tab 10 "" true (-1); sample_chrome_tab 11 "b" false 4]] in
  1700000000000 <> 0 /\
  every_tab (fun _ t => active t = true -> known_time (lastAccessed t))
    (getAllTabs (fun _ => None) (Resolved windows) (Resolved []) ∅ 1700000000000).
Proof.
  intros windows. split; [lia|].
  apply getAllTabs_active_tab_has_time. lia.
Defined.

Lemma getAllTabs_reports_recorded_access_witness :
  let windows := [sample_chrome_window 1 true
                    [sample_chrome_tab 10 "a" true (-1); sample_chrome_tab 11 "b" false 4]] in
  5 <> 0 /\
  every_tab (fun _ t => id t = 11 -> lastAccessed t = Some 5)
    (getAllTabs (fun _ => None) (Resolved windows) (Resolved [])
       (recordAccess 11 5 ∅) 1700000000000).
Proof.
  intros windows. split; [lia|].
  apply (getAllTabs_reports_recorded_access (fun _ => None) windows [] ∅). lia.
Defined.

(** ** Time ago *)

Lemma div_ltb (a b c : Z) : 0 < b -> (a / b <? c) = (a <? b * c).
Proof.
  intros Hb. destruct (Z.ltb_spec a (b * c)) as [H|H].
  - apply Z.ltb_lt. by apply Z.div_lt_upper_bound.
  - apply Z.ltb_ge. by apply Z.div_le_lower_bound.
Qed.

(** X13: for a timestamp other than [0], the text is chosen by the
    elapsed time alone: under a minute (or a timestamp in the future)
    whole seconds, under an hour whole minutes, under a day whole hours,
    otherwise whole days, each rounded down from the elapsed
    milliseconds. *)
Theorem formatTimeAgo_units (now ts : Z) :
  ts <> 0 ->
  formatTimeAgo now (Some ts) =
  let diff := now - ts in
  if diff <? 60000 then number_to_string (diff / 1000) +:+ "s ago"
  else if diff <? 3600000 then number_to_string (diff / 60000) +:+ "m ago"
  else if diff <? 86400000 then number_to_string (diff / 3600000) +:+ "h ago"
  else number_to_string (diff / 86400000) +:+ "d ago".
Proof.
  intros Hts. unfold formatTimeAgo.
  destruct (Z.eqb_spec ts 0) as [|_]; [done|]. simpl.
  set (diff := now - ts).
  rewrite !Z.div_div by lia. simpl Z.mul.
  rewrite !div_ltb by lia. reflexivity.
Qed.

Lemma formatTimeAgo_units_witness :
  1700000000000 <> 0 /\
  formatTimeAgo 1700000200000 (Some 1700000000000) = "3m ago" /\
  formatTimeAgo 1699999999000 (Some 1700000000000) = "-1s ago".
Proof.
  split; [lia|]. split.
  - exact (formatTimeAgo_units 1700000200000 1700000000000 ltac:(lia)).
  - exact (formatTimeAgo_units 1699999999000 1700000000000 ltac:(lia)).
Defined.

Lemma number_to_string_head (z : Z) :
  exists c rest, number_to_string z = String c rest /\ digit_or_minus c = true.
Proof.
  unfold number_to_string, NilZero.string_of_int, NilZero.string_of_uint.
  destruct (Z.to_int z) as [d|d]; [|eexists _, _; split; reflexivity].
  destruct d; simpl; eexists _, _; (split; reflexivity).
Qed.

Lemma formatTimeAgo_head (now ts : Z) :
  ts <> 0 ->
  exists c rest, formatTimeAgo now (Some ts) = String c rest /\ digit_or_minus c = true.
Proof.
  intros Hts. unfold formatTimeAgo.
  destruct (Z.eqb_spec ts 0) as [|_]; [done|]. simpl.
  repeat match goal with
         | |- context [if ?b then _ else _] => destruct b
         end;
    match goal with
    | |- context [number_to_string ?n] =>
        destruct (number_to_string_head n) as (c & rest & -> & Hc)
    end;
    rewrite append_String; eauto.
Qed.

(** X14: the text is [Unknown] exactly for a missing timestamp and for
    the timestamp [0]; for every other timestamp it starts with a
    decimal digit or a minus sign. *)
Theorem formatTimeAgo_unknown (now : Z) (timestamp : option Z) :
  (formatTimeAgo now timestamp = "Unknown" <-> ~ known_time timestamp) /\
  (known_time timestamp ->
   exists c rest, formatTimeAgo now timestamp = String c rest /\
                  digit_or_minus c = true).
Proof.
  unfold known_time. split.
  - destruct timestamp as [ts|].
    + destruct (Z.eqb_spec ts 0) as [->|Hts].
      * split; [|done]. intros _ (t & [= <-] & H). done.
      * split; [|intros H; destruct H; eauto].
        destruct (formatTimeAgo_head now ts Hts) as (c & rest & -> & Hc).
        intros [= -> _]. discriminate.
    + split; [|done]. intros _ (t & ? & _). done.
  - intros (ts & -> & Hts). by apply formatTimeAgo_head.
Qed.

(** ** More on the search filter *)

Lemma string_append_assoc (a b c : string) : (a +:+ b) +:+ c = a +:+ (b +:+ c).
Proof.
  induction a as [|x a IH]; [done|]. by rewrite !append_String, IH.
Qed.

Lemma prefix_iff (q s : string) :
  String.prefix q s = true <-> exists b, s = q +:+ b.
Proof.
  revert q; induction s as [|c s IH]; intros q.
  - destruct q as [|x q]; simpl.
    + split; [by exists ""|done].
    + split; [done|]. intros (b & H). by rewrite append_String in H.
  - destruct q as [|x q]; simpl.
    + split; [|done]. intros _. by exists (String c s).
    + destruct (ascii_dec x c) as [->|Hne].
      * rewrite IH. split; intros (b & H); exists b.
        -- by rewrite append_String, H.
        -- rewrite append_String in H. by injection H.
      * split; [done|]. intros (b & H). rewrite append_String in H. congruence.
Qed.

Lemma includes_unfold (s q : string) :
  JS.includes s q =
  String.prefix q s || match s with
                       | EmptyString => false
                       | String _ s' => JS.includes s' q
                       end.
Proof. by destruct s. Qed.

Lemma includes_iff (s q : string) :
  JS.includes s q = true <-> exists a b, s = a +:+ q +:+ b.
Proof.
  split.
  - induction s as [|c s IH]; rewrite includes_unfold; intros H;
      apply orb_true_iff in H as [H|H]; try done.
    + apply prefix_iff in H as (b & H). by exists "", b.
    + apply prefix_iff in H as (b & H). by exists "", b.
    + destruct (IH H) as (a & b & ->). by exists (String c a), b.
  - intros (a & b & ->). induction a as [|c a IH]; rewrite includes_unfold.
    + rewrite append_nil. apply orb_true_iff. left. apply prefix_iff. by exists b.
    + rewrite append_String. by rewrite IH, orb_true_r.
Qed.

Lemma includes_trans (s q' q : string) :
  JS.includes s q' = true -> JS.includes q' q = true -> JS.includes s q = true.
Proof.
  rewrite !includes_iff. intros (a & b & ->) (a' & b' & ->).
  exists (a +:+ a'), (b' +:+ b). by rewrite !string_append_assoc.
Qed.

Lemma filter_length_mono {X} (p' p : X -> bool) (l : list X) :
  (forall x, p' x = true -> p x = true) ->
  (length (List.filter p' l) <= length (List.filter p l))%nat.
Proof.
  intros H. induction l as [|x l IH]; simpl; [done|].
  destruct (p' x) eqn:E'.
  - rewrite (H _ E'). simpl. lia.
  - destruct (p x); simpl; lia.
Qed.

Lemma filter_idempotent {X} (p : X -> bool) (l : list X) :
  List.filter p (List.filter p l) = List.filter p l.
Proof.
  induction l as [|x l IH]; simpl; [done|].
  destruct (p x) eqn:E; simpl; [by rewrite E, IH|done].
Qed.

Section FilterFacts.

Variable toLowerCase : string -> string.

Lemma matches_narrowing (query query' : string) (tab : Tab) :
  JS.includes query' query = true ->
  matches toLowerCase query' tab = true ->
  matches toLowerCase query tab = true.
Proof.
  intros Hq. unfold matches.
  destruct query as [|c q]; [done|].
  destruct query' as [|c' q']; [done|]. simpl negb. cbv iota.
  rewrite !orb_true_iff. intros [H|H]; [left|right]; by eapply includes_trans.
Qed.

Lemma has_match_narrowing (query query' : string) (w : Window) :
  JS.includes query' query = true ->
  has_match toLowerCase query' w = true ->
  has_match toLowerCase query w = true.
Proof.
  intros Hq. unfold has_match. rewrite !existsb_exists.
  intros (t & Ht & Hm). exists t. split; [done|]. by eapply matches_narrowing.
Qed.

Lemma kept_total (query : string) (collapsed : gmap Z bool) (ws : list Window) :
  sum_Z (map (fun g => Z.of_nat (length (wg_tabs g)))
             (map (group_of toLowerCase query collapsed)
                  (List.filter (has_match toLowerCase query) ws))) =
  sum_Z (map (fun w => Z.of_nat (length (filteredTabs toLowerCase query w))) ws).
Proof.
  induction ws as [|w ws IH]; simpl; [done|].
  destruct (has_match toLowerCase query w) eqn:E; simpl; rewrite IH; [done|].
  rewrite <- retained_has_match in E. apply Z.ltb_ge in E. lia.
Qed.

(** X15: a query that contains another one (after lower-casing) never
    shows more: every tab it matches the contained query matches too, so
    neither the number of tabs nor the number of windows shown can be
    larger. *)
Theorem search_narrowing
    (windows : list Window) (searchQuery searchQuery' : string)
    (collapsed : gmap Z bool) :
  JS.includes (toLowerCase searchQuery') (toLowerCase searchQuery) = true ->
  let r := filterWindows toLowerCase windows searchQuery collapsed in
  let r' := filterWindows toLowerCase windows searchQuery' collapsed in
  (forall tab, matches toLowerCase (toLowerCase searchQuery') tab = true ->
               matches toLowerCase (toLowerCase searchQuery) tab = true) /\
  r'.1.2 <= r.1.2 /\
  r'.2 <= r.2.
Proof.
  intros Hq r r'. subst r r'. rewrite !filterWindows_spec. simpl.
  split; [intros tab; by apply matches_narrowing|]. split.
  - rewrite !kept_total. induction windows as [|w ws IH]; simpl; [done|].
    pose proof (filter_length_mono
                  (matches toLowerCase (toLowerCase searchQuery'))
                  (matches toLowerCase (toLowerCase searchQuery)) (tabs w)
                  (fun t => matches_narrowing _ _ t Hq)).
    unfold filteredTabs at 1 3. lia.
  - pose proof (filter_length_mono
                  (has_match toLowerCase (toLowerCase searchQuery'))
                  (has_match toLowerCase (toLowerCase searchQuery)) windows
                  (fun w => has_match_narrowing _ _ w Hq)).
    lia.
Qed.

(** X16: filtering what a search shows with the same query again changes
    nothing: the same windows with the same tabs, the same two counts. *)
Theorem search_idempotent
    (windows : list Window) (searchQuery : string) (collapsed : gmap Z bool) :
  let r := filterWindows toLowerCase windows searchQuery collapsed in
  let r' := filterWindows toLowerCase (map shown_window r.1.1) searchQuery collapsed in
  map shown_window r'.1.1 = map shown_window r.1.1 /\
  r'.1.2 = r.1.2 /\
  r'.2 = r.2.
Proof.
  intros r r'. subst r' r. rewrite (filterWindows_spec toLowerCase windows). simpl.
  set (query := toLowerCase searchQuery).
  set (kept := List.filter (has_match toLowerCase query) windows).
  rewrite filterWindows_spec. fold query. simpl.
  set (again := map shown_window (map (group_of toLowerCase query collapsed) kept)).
  assert (forall w, In w again ->
            has_match toLowerCase query w = true /\
            filteredTabs toLowerCase query w = tabs w) as Hagain.
  { intros w Hw. subst again. rewrite map_map in Hw.
    apply in_map_iff in Hw as (w0 & <- & Hw0). simpl.
    apply filter_In in Hw0 as [_ Hm].
    unfold has_match, filteredTabs in *. simpl. split.
    - rewrite existsb_exists in *. destruct Hm as (t & Ht & Hm).
      exists t. split; [|done]. apply filter_In. by split.
    - apply filter_idempotent. }
  assert (List.filter (has_match toLowerCase query) again = again) as Hkeep.
  { clear -Hagain. induction again as [|w ws IH]; simpl; [done|].
    destruct (Hagain w (or_introl eq_refl)) as [-> _]. f_equal.
    apply IH. intros w' Hw'. apply Hagain. by right. }
  rewrite Hkeep.
  assert (map shown_window (map (group_of toLowerCase query collapsed) again) = again)
    as Hshown.
  { clear -Hagain. induction again as [|w ws IH]; simpl; [done|].
    destruct (Hagain w (or_introl eq_refl)) as [_ E].
    unfold shown_window at 1. simpl. rewrite E. f_equal.
    - by destruct w.
    - apply IH. intros w' Hw'. apply Hagain. by right. }
  split; [exact Hshown|]. split.
  - rewrite (map_map (group_of toLowerCase query collapsed) _ again).
    simpl.
    transitivity (sum_Z (map (fun w => Z.of_nat (length (tabs w))) again)).
    + f_equal. apply map_ext_in. intros w Hw. by rewrite (proj2 (Hagain w Hw)).
    + subst again. by rewrite !map_map.
  - subst again. by rewrite !length_map.
Qed.

End FilterFacts.

Lemma search_narrowing_witness :
  let ws := [sample_window 1 true [sample_tab 1 "GitHub" "https://github.com" None;
                                   sample_tab 2 "Digital" "https://example.org" None]] in
  JS.includes (ascii_toLowerCase "GitH") (ascii_toLowerCase "git") = true /\
  (filterWindows ascii_toLowerCase ws "GitH" ∅).1.2 <=
  (filterWindows ascii_toLowerCase ws "git" ∅).1.2.
Proof.
  intros ws. split; [reflexivity|].
  exact (proj1 (proj2 (search_narrowing ascii_toLowerCase ws "git" "GitH" ∅ eq_refl))).
Defined.

(** ** What renderTabs draws *)

Section RenderFacts.

Variable toLowerCase : string -> string.
Variable localeCompare : string -> string -> Z.

Lemma kept_total_lower_bound (query : string) (collapsed : gmap Z bool) (ws : list Window) :
  Z.of_nat (length (List.filter (has_match toLowerCase query) ws)) <=
  sum_Z (map (fun g => Z.of_nat (length (wg_tabs g)))
             (map (group_of toLowerCase query collapsed)
                  (List.filter (has_match toLowerCase query) ws))).
Proof.
  induction ws as [|w ws IH]; simpl; [done|].
  destruct (has_match toLowerCase query w) eqn:E; simpl; [|done].
  rewrite <- retained_has_match in E. apply Z.ltb_lt in E. lia.
Qed.

(** X17: when the aggregator returned a window, what [renderTabs] does
    from there on is one of two things.  If no tab of any window
    matches, the container holds the message that nothing matches and
    nothing else, and both counters show [0].  Otherwise the call makes
    at least one window group, none of them empty, in order from the
    windows of the sorted list that have a matching tab, and appends
    them after whatever the container holds at that moment; the
    counters show the number of these groups and of the tabs in them,
    whatever else the container holds.  So the container holds exactly
    this call's groups when it was empty at that moment. *)
Theorem renderTabs_container
    (view : View) (windows : list Window) (sortBy searchQuery : string)
    (collapsed : gmap Z bool) :
  windows <> [] ->
  let view' := renderTabs toLowerCase localeCompare view windows sortBy
                 searchQuery collapsed in
  let query := toLowerCase searchQuery in
  (Forall (fun w => has_match toLowerCase query w = false) windows /\
   container view' = [MessageDiv "No tabs match your search"] /\
   window_count view' = 0 /\
   tab_count_shown view' = 0) \/
  (exists groups,
     groups <> [] /\
     Forall (fun g => wg_tabs g <> []) groups /\
     map wg_window groups =
       List.filter (has_match toLowerCase query)
         (sortWindows toLowerCase localeCompare windows sortBy) /\
     Forall (fun g => wg_tabs g =
                      List.filter (matches toLowerCase query) (tabs (wg_window g)))
            groups /\
     container view' = (container view ++ map WindowGroupDiv groups)%list /\
     (container view = [] -> container view' = map WindowGroupDiv groups) /\
     window_count view' = Z.of_nat (length groups) /\
     tab_count_shown view' =
       sum_Z (map (fun g => Z.of_nat (length (wg_tabs g))) groups)).
Proof.
  intros Hne view' query. subst view'. unfold renderTabs.
  replace (Z.of_nat (length windows) =? 0) with false
    by (symmetry; apply Z.eqb_neq; destruct windows; [done|simpl; lia]).
  rewrite filterWindows_spec. fold query.
  set (sorted := sortWindows toLowerCase localeCompare windows sortBy).
  set (kept := List.filter (has_match toLowerCase query) sorted).
  pose proof (kept_total_lower_bound query collapsed sorted) as Hlow. fold kept in Hlow.
  destruct (Z.eqb_spec
              (sum_Z (map (fun g => Z.of_nat (length (wg_tabs g)))
                          (map (group_of toLowerCase query collapsed) kept))) 0)
    as [E|E]; simpl.
  - left.
    rewrite E in Hlow. assert (kept = []) as Hk by (destruct kept; [done|simpl in Hlow; lia]).
    split; [|by rewrite Hk].
    apply Forall_forall. intros w Hw.
    destruct (has_match toLowerCase query w) eqn:Hm; [|done].
    assert (In w kept) as Hin.
    { apply filter_In. split; [|done].
      apply list_elem_of_In. subst sorted.
      by rewrite sortWindows_Permutation. }
    rewrite Hk in Hin. destruct Hin.
  - right. exists (map (group_of toLowerCase query collapsed) kept).
    split; [by destruct kept|]. split.
    { apply Forall_forall. intros g Hg.
      apply list_elem_of_In, in_map_iff in Hg as (w & <- & Hw). simpl.
      apply filter_In in Hw as [_ Hw]. rewrite <- retained_has_match in Hw.
      apply Z.ltb_lt in Hw. intros E'. rewrite E' in Hw. simpl in Hw. lia. }
    split; [rewrite map_map; simpl; apply map_id|].
    split.
    { apply Forall_forall. intros g Hg.
      by apply list_elem_of_In, in_map_iff in Hg as (w & <- & Hw). }
    split; [done|].
    split; [by intros ->|].
    split; [by rewrite length_map|done].
Qed.

(** X18: after a toggle of window [w], the next render draws the same
    groups with the same tabs and counts; the group of [w] has its
    collapsed mark flipped and every other group keeps its mark. *)
Theorem toggle_shows_in_next_render
    (windows : list Window) (searchQuery : string) (s : CollapseStore) (w : Z) :
  let before := filterWindows toLowerCase windows searchQuery (collapsedWindows s) in
  let after := filterWindows toLowerCase windows searchQuery
                 (collapsedWindows (toggleWindowCollapse w s).1) in
  after.1.1 =
    map (fun g => {| wg_window := wg_window g;
                     wg_tabs := wg_tabs g;
                     wg_collapsed := if windowId (wg_window g) =? w
                                     then negb (wg_collapsed g)
                                     else wg_collapsed g |})
        before.1.1 /\
  after.1.2 = before.1.2 /\
  after.2 = before.2.
Proof.
  intros before after. subst before after. rewrite !filterWindows_spec. simpl.
  rewrite !map_map. simpl. split; [|done].
  apply map_ext. intros x. unfold group_of. f_equal. unfold isCollapsed.
  destruct (Z.eqb_spec (windowId x) w) as [->|E].
  - by rewrite lookup_insert_eq.
  - by rewrite lookup_insert_ne.
Qed.

End RenderFacts.

Lemma renderTabs_container_witness :
  let ws := [sample_window 1 true [sample_tab 1 "GitHub" "https://github.com" None];
             sample_window 2 false [sample_tab 2 "docs" "https://example.org" None]] in
  let view := {| container := []; window_count := 7; tab_count_shown := 9 |} in
  let view' := renderTabs ascii_toLowerCase code_localeCompare view ws
                 "tab-count-asc" "Git" ∅ in
  ws <> [] /\
  ((Forall (fun w => has_match ascii_toLowerCase "git" w = false) ws /\
    container view' = [MessageDiv "No tabs match your search"] /\
    window_count view' = 0 /\
    tab_count_shown view' = 0) \/
   (exists groups,
      groups <> [] /\
      Forall (fun g => wg_tabs g <> []) groups /\
      map wg_window groups =
        List.filter (has_match ascii_toLowerCase "git")
          (sortWindows ascii_toLowerCase code_localeCompare ws "tab-count-asc") /\
      Forall (fun g => wg_tabs g =
                       List.filter (matches ascii_toLowerCase "git") (tabs (wg_window g)))
             groups /\
      container view' = (container view ++ map WindowGroupDiv groups)%list /\
      (container view = [] -> container view' = map WindowGroupDiv groups) /\
      window_count view' = Z.of_nat (length groups) /\
      tab_count_shown view' =
        sum_Z (map (fun g => Z.of_nat (length (wg_tabs g))) groups))).
Proof.
  intros ws view view'.
  assert (ws <> []) as Hne by discriminate.
  split; [exact Hne|].
  exact (renderTabs_container ascii_toLowerCase code_localeCompare view ws
           "tab-count-asc" "Git" ∅ Hne).
Defined.

(** Two calls that both reach their [await] before either returns from
    it: each empties the container, then each appends its groups, and
    the counters are those of the second. *)
Example renderTabs_overlapping :
  let ws := [sample_window 1 true [sample_tab 1 "GitHub" "https://github.com" None];
             sample_window 2 false [sample_tab 2 "docs" "https://example.org" None]] in
  let view := {| container := []; window_count := 0; tab_count_shown := 0 |} in
  let started := renderTabs_start (renderTabs_start view) in
  let first := renderTabs ascii_toLowerCase code_localeCompare started ws
                 "tab-count-asc" "" ∅ in
  let second := renderTabs ascii_toLowerCase code_localeCompare first ws
                  "tab-count-asc" "" ∅ in
  length (container second) = 4%nat /\ window_count second = 2 /\
  tab_count_shown second = 2.
Proof. repeat split. Qed.

(** ** More on live updates *)

Lemma fire_all_frame (due : list Timer) (s : State) :
  timers (foldl fire s due) = timers s /\
  debounceTimeout (foldl fire s due) = debounceTimeout s /\
  tabAccessTimes (foldl fire s due) = tabAccessTimes s /\
  searchInput_value (foldl fire s due) = searchInput_value s /\
  next_timer_id (foldl fire s due) = next_timer_id s /\
  map fst (renders (foldl fire s due)) = (map fst (renders s) ++ map deadline due)%list.
Proof.
  revert s; induction due as [|t due IH]; intros s; simpl.
  - by rewrite app_nil_r.
  - destruct (IH (fire s t)) as (-> & -> & -> & -> & -> & ->). simpl.
    rewrite map_app. simpl. by rewrite <- app_assoc.
Qed.

Lemma advance_frame (now : Z) (s : State) :
  debounceTimeout (advance now s) = debounceTimeout s /\
  tabAccessTimes (advance now s) = tabAccessTimes s /\
  searchInput_value (advance now s) = searchInput_value s.
Proof.
  unfold advance.
  match goal with
  | |- context [foldl fire ?s0 ?due] =>
      destruct (fire_all_frame due s0) as (_ & -> & -> & -> & _)
  end.
  done.
Qed.

Lemma advance_single_armed (now : Z) (s : State) :
  single_armed s -> single_armed (advance now s).
Proof.
  intros H. unfold single_armed.
  destruct (advance_frame now s) as (-> & _). unfold advance.
  match goal with
  | |- context [foldl fire ?s0 ?due] =>
      destruct (fire_all_frame due s0) as (-> & _)
  end.
  simpl. destruct H as [->|(t & -> & Hh)]; simpl; [by left|].
  destruct (now <? deadline t); [right; eauto|by left].
Qed.

Lemma clearTimeout_single (s : State) :
  single_armed s -> clearTimeout (debounceTimeout s) (timers s) = [].
Proof.
  intros [E|(t & E & Hh)]; rewrite E.
  - unfold clearTimeout. by destruct (debounceTimeout s).
  - rewrite Hh. simpl. by rewrite Z.eqb_refl.
Qed.

Lemma dispatch_single_armed (e : Event) (now : Z) (s : State) :
  single_armed s ->
  exists t, timers (dispatch e now s) = [t] /\
            deadline t = now + 300 /\
            debounceTimeout (dispatch e now s) = Some (timer_id t) /\
            renders (dispatch e now s) = renders s.
Proof.
  intros H. pose proof (clearTimeout_single s H) as Hc.
  destruct e; simpl;
    unfold onUpdatedListener, onCreatedListener, onRemovedListener,
           onActivatedListener, onSearchInput, onTabSearch, debouncedRender, arm;
    simpl; rewrite Hc; eexists; simpl; done.
Qed.

Lemma step_single_armed (s : State) (te : Z * Event) :
  single_armed s -> single_armed (step s te).
Proof.
  intros H. unfold step.
  destruct (dispatch_single_armed te.2 te.1 (advance te.1 s)) as (t & Ht & _ & Hh & _).
  - by apply advance_single_armed.
  - right. eauto.
Qed.

Lemma steps_single_armed (events : list (Z * Event)) (s : State) :
  single_armed s -> single_armed (foldl step s events).
Proof.
  revert s; induction events as [|te events IH]; intros s H; simpl; [done|].
  by apply IH, step_single_armed.
Qed.

(** X19: whatever events arrive and whenever, starting from the state
    the popup opens in, there is never more than one timer pending: runs
    are never queued. *)
Theorem never_two_pending_timers
    (search : string) (events : list (Z * Event)) (finish : Z) :
  (length (timers (foldl step (initial search) events)) <= 1)%nat /\
  (length (timers (run (initial search) events finish)) <= 1)%nat.
Proof.
  assert (single_armed (foldl step (initial search) events)) as H
    by (apply steps_single_armed; by left).
  split.
  - destruct H as [->|(t & -> & _)]; simpl; lia.
  - unfold run. destruct (advance_single_armed finish _ H) as [->|(t & -> & _)];
      simpl; lia.
Qed.

Lemma advance_due (now : Z) (s : State) :
  Forall (fun t => deadline t <= now) (timers s) ->
  map fst (renders (advance now s)) = (map fst (renders s) ++ map deadline (timers s))%list /\
  timers (advance now s) = [].
Proof.
  intros H. unfold advance.
  assert (List.filter (fun t => deadline t <=? now) (timers s) = timers s) as ->.
  { induction H as [|t ts Ht Hts IH]; simpl; [done|].
    replace (deadline t <=? now) with true by (symmetry; apply Z.leb_le; lia).
    by rewrite IH. }
  assert (List.filter (fun t => now <? deadline t) (timers s) = []) as ->.
  { induction H as [|t ts Ht Hts IH]; simpl; [done|].
    by replace (now <? deadline t) with false by (symmetry; apply Z.ltb_ge; lia). }
  match goal with
  | |- context [foldl fire ?s0 ?due] =>
      destruct (fire_all_frame due s0) as (-> & _ & _ & _ & _ & ->)
  end.
  done.
Qed.

Lemma spaced_run (events : list (Z * Event)) (s : State) (finish : Z) :
  single_armed s ->
  Forall (fun t => deadline t <= first_time finish events) (timers s) ->
  spaced finish events ->
  map fst (renders (run s events finish)) =
  (map fst (renders s) ++ map deadline (timers s)
     ++ map (fun te => te.1 + 300) events)%list.
Proof.
  revert s; induction events as [|te events IH]; intros s Hs Hd Hsp.
  - unfold run. simpl in *. rewrite app_nil_r. by apply advance_due.
  - simpl in Hd, Hsp. destruct Hsp as [Hgap Hsp].
    destruct (advance_due te.1 s Hd) as [Hr Ht].
    destruct (dispatch_single_armed te.2 te.1 (advance te.1 s))
      as (t & Htm & Hdl & Hh & Hrn); [by apply advance_single_armed|].
    change (run s (te :: events) finish) with (run (step s te) events finish).
    rewrite IH; [| | |done].
    + unfold step. rewrite Hrn, Hr, Htm. simpl. rewrite Hdl.
      by rewrite <- app_assoc.
    + right. exists t. by split.
    + unfold step. rewrite Htm. constructor; [lia|constructor].
Qed.

(** X20: events that come no sooner than [300] after one another are
    not merged: starting with no timer pending, each event gets its own
    render, [300] after it, in order. *)
Theorem spaced_events_each_render
    (s : State) (events : list (Z * Event)) (finish : Z) :
  timers s = [] ->
  spaced finish events ->
  map fst (renders (run s events finish)) =
  (map fst (renders s) ++ map (fun te => te.1 + 300) events)%list.
Proof.
  intros Hs Hsp. rewrite spaced_run; [|by left| |done].
  - by rewrite Hs.
  - rewrite Hs. constructor.
Qed.

Lemma spaced_events_each_render_witness :
  let events := [(0, TabCreated); (300, SearchInput "a"); (1000, TabActivated 3)] in
  timers (initial "") = [] /\
  spaced 1300 events /\
  map fst (renders (run (initial "") events 1300)) = [300; 600; 1300].
Proof.
  intros events.
  assert (spaced 1300 events) as H by (simpl; lia).
  split; [reflexivity|]. split; [exact H|].
  exact (spaced_events_each_render (initial "") events 1300 eq_refl H).
Defined.

Lemma popup_steps_access_times
    (tabId : Z) (events : list (Z * PopupEvent)) (s : State) :
  tabAccessTimes (foldl popup_step s events) !! tabId =
  foldl (fun found te =>
           match te.2 with
           | Notified (TabActivated i) => if i =? tabId then Some te.1 else found
           | SwitchSettled i (Resolved _) (Resolved _) =>
               if i =? tabId then Some te.1 else found
           | _ => found
           end)
        (tabAccessTimes s !! tabId) events.
Proof.
  revert s; induction events as [|te events IH]; intros s; simpl; [done|].
  rewrite IH. f_equal. unfold popup_step.
  destruct (advance_frame te.1 s) as (_ & Ha & _).
  destruct te.2 as [e|i wu tu]; simpl.
  - unfold step. simpl. destruct e as [| | |i|v]; simpl; rewrite ?Ha; try done.
    unfold recordAccess. destruct (Z.eqb_spec i tabId) as [->|E].
    + by rewrite lookup_insert_eq.
    + by rewrite lookup_insert_ne.
  - rewrite Ha. unfold switchToTab, recordAccess.
    destruct wu, tu; try done.
    destruct (Z.eqb_spec i tabId) as [->|E].
    + by rewrite lookup_insert_eq.
    + by rewrite lookup_insert_ne.
Qed.

(** X21: the tracker always holds, for every tab, the time of the latest
    write for it, an activation event of the tab or a [switchToTab] to
    it whose two commands succeeded, and nothing for a tab with neither;
    a failed [switchToTab], the other events, the timers and the renders
    do not touch it. *)
Theorem tracker_follows_activations
    (search : string) (events : list (Z * PopupEvent)) (finish tabId : Z) :
  getAccess tabId
    (tabAccessTimes (advance finish (foldl popup_step (initial search) events))) =
  last_access_write tabId events.
Proof.
  unfold getAccess.
  destruct (advance_frame finish (foldl popup_step (initial search) events))
    as (_ & -> & _).
  by rewrite popup_steps_access_times.
Qed.

(** X22: closing the popup clears the pending timer, whatever came
    before: nothing is left to fire, and no render happens however long
    the clock runs afterwards. *)
Theorem unload_cancels_pending_render
    (search : string) (events : list (Z * Event)) (later : Z) :
  let closed := onUnload (foldl step (initial search) events) in
  timers closed = [] /\
  renders (advance later closed) = renders (foldl step (initial search) events).
Proof.
  intros closed.
  assert (timers closed = []) as Ht.
  { subst closed. unfold onUnload. simpl. apply clearTimeout_single.
    apply steps_single_armed. by left. }
  split; [done|]. unfold advance. by rewrite Ht.
Qed.

(** ** More on collapsed windows *)

(** X23: a toggle of [w] flips how [w] reads and leaves every other
    window as it reads; a second toggle of [w] brings every window back
    to how it read at first. *)
Theorem toggle_flips_one_window (s : CollapseStore) (w w' : Z) :
  isCollapsed (collapsedWindows (toggleWindowCollapse w s).1) w' =
    (if w' =? w then negb (isCollapsed (collapsedWindows s) w')
     else isCollapsed (collapsedWindows s) w') /\
  isCollapsed
    (collapsedWindows (toggleWindowCollapse w (toggleWindowCollapse w s).1).1) w' =
    isCollapsed (collapsedWindows s) w'.
Proof.
  simpl. unfold isCollapsed.
  destruct (Z.eqb_spec w' w) as [->|E].
  - rewrite !lookup_insert_eq. simpl. split; [done|]. apply negb_involutive.
  - by rewrite !lookup_insert_ne.
Qed.

Lemma collapse_step_newest (s : CollapseStore) (op : CollapseOp) :
  op <> Load ->
  newest_snapshot s = collapsedWindows s ->
  newest_snapshot (collapse_step s op) = collapsedWindows (collapse_step s op).
Proof.
  intros Hop H. destruct op as [w| |]; [| done |].
  - unfold newest_snapshot. simpl. by rewrite last_snoc.
  - unfold newest_snapshot, collapse_step, completeWrite in *.
    destruct (writes s) as [|m rest] eqn:E; [by rewrite E|]. simpl.
    destruct rest as [|m' rest]; simpl in *; [done|].
    destruct (proj2 (last_is_Some (m' :: rest)) ltac:(done)) as [x Hx].
    by rewrite Hx in *.
Qed.

Lemma collapse_run_newest (ops : list CollapseOp) (s : CollapseStore) :
  Load ∉ ops ->
  newest_snapshot s = collapsedWindows s ->
  newest_snapshot (foldl collapse_step s ops) =
  collapsedWindows (foldl collapse_step s ops).
Proof.
  revert s; induction ops as [|op ops IH]; intros s Hops Hs; simpl; [done|].
  apply not_elem_of_cons in Hops as [Hop Hops].
  apply IH; [done|]. apply collapse_step_newest; [congruence|done].
Qed.

Lemma reload_after_writes (memory : gmap Z bool) (s : CollapseStore) :
  stored (completeWrites s) =
    match writes s with [] => stored s | _ :: _ => Some (newest_snapshot s) end /\
  collapsedWindows (loadCollapsedState (reopen memory (completeWrites s))) =
    newest_snapshot s.
Proof.
  unfold newest_snapshot.
  destruct (writes s) as [|m0 rest] eqn:E.
  - unfold completeWrites. by rewrite E.
  - destruct (exists_last (l := m0 :: rest)) as (before & m & Hbm); [done|].
    rewrite Hbm, last_snoc. simpl. unfold completeWrites.
    by rewrite (completeWrites_from _ _ m before); [|by rewrite E|].
Qed.

(** X24: in a session that starts by loading the stored map with no
    write outstanding, after any toggles and completed writes, once the
    remaining writes are carried out the storage holds the whole map as
    it is in memory: a popup opened anew, whatever its memory held,
    loads back the state of every window. *)
Theorem storage_catches_up
    (s0 : CollapseStore) (ops : list CollapseOp) (memory : gmap Z bool) :
  writes s0 = [] ->
  Load ∉ ops ->
  let s := foldl collapse_step (loadCollapsedState s0) ops in
  default ∅ (stored (completeWrites s)) = collapsedWindows s /\
  collapsedWindows (loadCollapsedState (reopen memory (completeWrites s))) =
    collapsedWindows s.
Proof.
  intros Hw Hops s.
  assert (newest_snapshot s = collapsedWindows s) as Hn.
  { subst s. apply collapse_run_newest; [done|].
    unfold newest_snapshot. simpl. by rewrite Hw. }
  destruct (reload_after_writes memory s) as [Hst Hre].
  split; [|by rewrite Hre].
  rewrite Hst. destruct (writes s) eqn:E; [|done].
  unfold newest_snapshot in Hn. by rewrite E in Hn.
Qed.

Lemma storage_catches_up_witness :
  let s0 := {| collapsedWindows := ∅; stored := Some {[ 4 := true ]}; writes := [] |} in
  let ops := [Toggle 1; Toggle 2; WriteDone; Toggle 1; Toggle 4] in
  let s := foldl collapse_step (loadCollapsedState s0) ops in
  writes s0 = [] /\
  (Load ∉ ops) /\
  default ∅ (stored (completeWrites s)) = collapsedWindows s /\
  collapsedWindows (loadCollapsedState (reopen ∅ (completeWrites s))) =
    collapsedWindows s.
Proof.
  intros s0 ops s.
  assert (Load ∉ ops) as H.
  { intros H. repeat (apply elem_of_cons in H as [H|H]; [discriminate|]).
    by apply elem_of_nil in H. }
  split; [reflexivity|]. split; [exact H|].
  exact (storage_catches_up s0 ops ∅ eq_refl H).
Defined.

(** ** Switching to a tab *)

(** X25: [switchToTab] records the time for its tab only when both
    browser commands succeed; when either fails nothing is recorded; the
    entries of other tabs are never touched. *)
Theorem switchToTab_records_on_success_only
    (windows_update tabs_update : outcome unit) (tabId now other : Z)
    (times : gmap Z Z) :
  getAccess other (switchToTab windows_update tabs_update tabId now times) =
  match windows_update, tabs_update with
  | Resolved _, Resolved _ => if other =? tabId then Some now else getAccess other times
  | _, _ => getAccess other times
  end.
Proof.
  unfold switchToTab, getAccess, recordAccess.
  destruct windows_update, tabs_update; try done.
  destruct (Z.eqb_spec other tabId) as [->|E].
  - by rewrite lookup_insert_eq.
  - by rewrite lookup_insert_ne.
Qed.

(** ** The stored sort preference *)

(** X26: a preference saved successfully is what the next load returns,
    except the empty string, for which the load returns the default; a
    failed save leaves what the load returned before; and no load ever
    returns the empty string. *)
Theorem sort_preference_roundtrip
    (sortBy error : string) (slot : option string) (get : outcome (option string)) :
  loadSortPreference (Resolved (saveSortPreference sortBy (Resolved ()) slot)) =
    (if JS.truthy sortBy then sortBy else DEFAULT_SORT) /\
  loadSortPreference (Resolved (saveSortPreference sortBy (Rejected error) slot)) =
    loadSortPreference (Resolved slot) /\
  loadSortPreference get <> "".
Proof.
  split; [done|]. split; [done|].
  unfold loadSortPreference, JS.or_else.
  destruct get as [[v|]|]; try done. by destruct v.
Qed.
